(** * keymaster: the event recorder and the LDAP password authenticator

    A shallow embedding of package [eventrecorder] (the per-user issuance
    history with its doubly linked chains, the snapshot cache, the durable
    log and the actor loop) and of [lib/pwauth/ldap] (password
    authentication with its hash cache), with the properties the
    specification states about them.

    Conventions.
    - Go's [uint32] and [uint64] are [Z] with the wrap-around written out
      ([uint32], [uint64] below).
    - Go pointers to [eventType] nodes are addresses in an arena
      ([list eventType], address = index, allocation = append); [nil] is
      [None].
    - Go maps are stdpp's [gmap]; where the source ranges over a map and
      mutates the heap while doing so, the order of the range is an
      explicit argument, because Go leaves it unspecified.
    - Wall-clock readings ([time.Now], [time.Until], [time.Since]) are
      inputs of the functions that take them. *)

From Stdlib Require Import ZArith Lia.
From stdpp Require Import gmap strings list fin_maps.

(** ** Machine integers *)

Definition uint32 (z : Z) : Z := (z mod 2 ^ 32)%Z.
Definition uint64 (z : Z) : Z := (z mod 2 ^ 64)%Z.

Definition is_uint32 (z : Z) : Prop := (0 <= z < 2 ^ 32)%Z.
Definition is_uint64 (z : Z) : Prop := (0 <= z < 2 ^ 64)%Z.

(** ** Data model (package eventrecorder) *)

(** [EventType]: the exported record of one issuance. *)
Record EventType := mkEventType {
  CreateTime : Z;        (* uint64, seconds since the epoch *)
  LifetimeSeconds : Z;   (* uint32 *)
  Ssh : bool;
  X509 : bool
}.

#[global] Instance EventType_eq_dec : EqDecision EventType.
Proof. solve_decision. Defined.

(** A pointer to an [eventType] node. *)
Abbreviation ptr := nat.

(** [eventType]: a node of a user's chain; it embeds the [EventType]. *)
Record eventType := mkEvent {
  ev : EventType;
  older : option ptr;
  newer : option ptr
}.

#[global] Instance eventType_eq_dec : EqDecision eventType.
Proof. solve_decision. Defined.

(** [eventsListType]: the two ends of a user's chain. *)
Record eventsListType := mkEventsList {
  newest : option ptr;
  oldest : option ptr
}.

#[global] Instance eventsListType_eq_dec : EqDecision eventsListType.
Proof. solve_decision. Defined.

(** [EventsMap]: username to records, as persisted and as served. *)
Abbreviation EventsMap := (gmap string (list EventType)).

(** [Events]: one snapshot. *)
Record Events := mkEvents {
  ComputeTime : Z;
  Events_map : EventsMap
}.

(** [EventRecorder]: the node arena and [eventsMap].  In the source
    [eventsMap] holds a pointer to each user's [eventsListType]; every such
    struct is created for one key only and reached only through it, so the
    model keeps the struct in the map and writes it back after a change. *)
Record EventRecorder := mkRecorder {
  filename : string;
  heap : list eventType;
  eventsMap : gmap string eventsListType
}.

Definition set_newer (v : option ptr) (n : eventType) : eventType :=
  {| ev := ev n; older := older n; newer := v |}.
Definition set_older (v : option ptr) (n : eventType) : eventType :=
  {| ev := ev n; older := v; newer := newer n |}.

(** ** Constants *)

Definition S_IRUSR : Z := 256.  (* 0400 *)
Definition S_IWUSR : Z := 128.  (* 0200 *)
Definition S_IXUSR : Z := 64.   (* 0100 *)
Definition S_IRGRP : Z := 32.   (* 0040 *)
Definition S_IWGRP : Z := 16.   (* 0020 *)
Definition S_IXGRP : Z := 8.    (* 0010 *)
Definition S_IROTH : Z := 4.    (* 0004 *)
Definition S_IWOTH : Z := 2.    (* 0002 *)
Definition S_IXOTH : Z := 1.    (* 0001 *)

Definition bufferLength : nat := 16.
Definition filePerms : Z :=
  Z.lor (Z.lor (Z.lor S_IRUSR S_IWUSR) S_IRGRP) S_IROTH.
(** [durationMonth = time.Hour * 24 * 31], in seconds. *)
Definition durationMonth : Z := (3600 * 24 * 31)%Z.

(** ** recordEvent: lifetime quantization (lines 125-137)

    [lifetimeSeconds] is the value of [uint32(lifetime.Seconds() + 0.5)];
    the floating-point conversion itself is outside the model. *)
Definition quantizeLifetime (lifetimeSeconds : Z) : Z :=
  if (3600 <=? lifetimeSeconds)%Z then
    let hours := (lifetimeSeconds / 3600)%Z in
    let hoursPlus := (uint32 (lifetimeSeconds + 60) / 3600)%Z in
    if (hours <? hoursPlus)%Z then uint32 (hoursPlus * 3600)
    else lifetimeSeconds
  else if (60 <=? lifetimeSeconds)%Z then
    let minutes := (lifetimeSeconds / 60)%Z in
    let minutesPlus := (uint32 (lifetimeSeconds + 1) / 60)%Z in
    if (minutes <? minutesPlus)%Z then uint32 (minutesPlus * 60)
    else lifetimeSeconds
  else lifetimeSeconds.

(** The rule of section 4.2 in the specification's words, over the
    mathematical integers (no wrap-around). *)
Definition quantize_spec (s : Z) : Z :=
  if (3600 <=? s)%Z then
    let h := (s / 3600)%Z in
    let hPlus := ((s + 60) / 3600)%Z in
    if (h <? hPlus)%Z then (hPlus * 3600)%Z else s
  else if (60 <=? s)%Z then
    let m := (s / 60)%Z in
    let mPlus := ((s + 1) / 60)%Z in
    if (m <? mPlus)%Z then (mPlus * 60)%Z else s
  else s.

(** ** Appending a node at the newest end

    The source writes this block twice, in [loadEvents] (lines 64-74) and
    in [recordEvent] (lines 143-158): allocate the node with
    [older = eventsList.newest], link the previous newest node to it, make
    it [newest], and make it [oldest] too when the list was empty. *)
Definition appendEvent (h : list eventType) (eventsList : eventsListType)
    (e : EventType) : list eventType * eventsListType :=
  let event : ptr := length h in
  let h1 := h ++ [{| ev := e; older := newest eventsList; newer := None |}] in
  let h2 := match newest eventsList with
            | Some q => alter (set_newer (Some event)) q h1
            | None => h1
            end in
  (h2, {| newest := Some event;
          oldest := match oldest eventsList with
                    | None => Some event
                    | Some o => Some o
                    end |}).

(** ** recordEvent

    [now] is [time.Now().Unix()]. *)
Definition recordEvent (sr : EventRecorder) (username : string)
    (lifetimeSeconds : Z) (ssh x509 : bool) (now : Z) : EventRecorder :=
  let lifetimeSeconds := quantizeLifetime lifetimeSeconds in
  let eventsList := match eventsMap sr !! username with
                    | Some l => l
                    | None => {| newest := None; oldest := None |}
                    end in
  let '(h, eventsList') :=
    appendEvent (heap sr) eventsList
      {| CreateTime := uint64 now; LifetimeSeconds := lifetimeSeconds;
         Ssh := ssh; X509 := x509 |} in
  {| filename := filename sr; heap := h;
     eventsMap := <[username := eventsList']> (eventsMap sr) |}.

(** ** getEventsList

    The inner loop [for event := eventsList.newest; event != nil;
    event = event.older].  [fuel] bounds the number of iterations; [None]
    stands for a walk that does not end (a cyclic chain) or that follows a
    pointer outside the arena, which a Go pointer cannot be. *)
Fixpoint walkOlder (fuel : nat) (h : list eventType) (event : option ptr)
    : option (list EventType) :=
  match event with
  | None => Some []
  | Some p =>
      match fuel with
      | O => None
      | S fuel' =>
          match h !! p with
          | None => None
          | Some node =>
              match walkOlder fuel' h (older node) with
              | Some rest => Some (ev node :: rest)
              | None => None
              end
          end
      end
  end.

(** The outer loop only reads the store, so the order of the range does not
    matter: the result maps every user to the walk of that user's chain,
    and there is no result when one of the walks has none. *)
Definition buildEventsMap (sr : EventRecorder) : option EventsMap :=
  let walks := (λ l, walkOlder (length (heap sr)) (heap sr) (newest l))
                 <$> eventsMap sr in
  if decide (map_Forall (λ _ (o : option (list EventType)), is_Some o) walks)
  then Some (omap id walks) else None.

(** The snapshot cache.  [*Events] values live in an arena of their own:
    [snapshots] holds every [Events] struct [getEventsList] has allocated,
    [lastEvents] is the cached pointer. *)
Record cache := mkCache {
  snapshots : list Events;
  lastEvents : option nat
}.

(** [getEventsList(&lastEvents)]: the cache after the call and the pointer
    returned.  [computeTime] is [time.Since(startTime)]. *)
Definition getEventsList (sr : EventRecorder) (c : cache) (computeTime : Z)
    : option (cache * nat) :=
  match lastEvents c with
  | Some p => Some (c, p)
  | None =>
      match buildEventsMap sr with
      | None => None
      | Some m =>
          let p := length (snapshots c) in
          Some ({| snapshots := snapshots c ++ [mkEvents computeTime m];
                   lastEvents := Some p |}, p)
      end
  end.

(** ** expireOldEvents *)

(** [minCreateTime := uint64(time.Now().Add(-durationMonth).Unix())]. *)
Definition minCreateTime (now : Z) : Z := uint64 (now - durationMonth).

(** The inner loop over one user's chain, from [oldest] along [newer]. *)
Fixpoint expireList (fuel : nat) (minCT : Z) (h : list eventType)
    (eventsList : eventsListType) (event : option ptr) (changed : bool)
    : option (list eventType * eventsListType * bool) :=
  match event with
  | None => Some (h, eventsList, changed)
  | Some p =>
      match fuel with
      | O => None
      | S fuel' =>
          match h !! p with
          | None => None
          | Some node =>
              if (minCT <=? CreateTime (ev node))%Z
              then Some (h, eventsList, changed)
              else
                let l1 := {| newest := newest eventsList;
                             oldest := newer node |} in
                let '(h1, l2) :=
                  match newer node with
                  | None => (h, {| newest := None; oldest := oldest l1 |})
                  | Some q => (alter (set_older None) q h, l1)
                  end in
                expireList fuel' minCT h1 l2 (newer node) true
          end
      end
  end.

(** The outer loop, over the users in the order [order] of the range. *)
Fixpoint expireUsers (order : list string) (minCT : Z)
    (h : list eventType) (m : gmap string eventsListType) (changed : bool)
    : option (list eventType * gmap string eventsListType * bool) :=
  match order with
  | [] => Some (h, m, changed)
  | username :: rest =>
      match m !! username with
      | None => expireUsers rest minCT h m changed
      | Some eventsList =>
          match expireList (length h) minCT h eventsList
                  (oldest eventsList) changed with
          | None => None
          | Some (h', l', changed') =>
              expireUsers rest minCT h' (<[username := l']> m) changed'
          end
      end
  end.

Definition expireOldEvents (order : list string) (now : Z)
    (sr : EventRecorder) : option (bool * EventRecorder) :=
  match expireUsers order (minCreateTime now) (heap sr) (eventsMap sr) false
  with
  | None => None
  | Some (h, m, changed) =>
      Some (changed, {| filename := filename sr; heap := h; eventsMap := m |})
  end.

(** A range order of a map: every key once. *)
Definition range_order {V} (m : gmap string V) (order : list string) : Prop :=
  order ≡ₚ (map_to_list m).*1.

(** ** The durable log

    The environment of [loadEvents] and [saveEvents]: a file system that
    maps a path to a file with its mode and content.  The content is what
    [gob] decodes it to: an [EventsMap], or nothing ([Garbage]).  A file
    system mounted read-only refuses [fsutil.CreateRenamingWriter]; a file
    without the owner's read bit refuses [os.Open]. *)
Inductive error :=
  | ErrNotExist      (* ENOENT *)
  | ErrPermission    (* EACCES *)
  | ErrReadOnly      (* EROFS *)
  | ErrDecode.       (* gob: the stream does not decode *)

(** [os.IsNotExist]. *)
Definition IsNotExist (e : error) : bool :=
  match e with ErrNotExist => true | _ => false end.

Inductive fileData :=
  | Gob (events : EventsMap)
  | Garbage.

Record file := mkFile {
  mode : Z;
  data : fileData
}.

Record FS := mkFS {
  files : gmap string file;
  readOnly : bool
}.

Definition os_Open (fs : FS) (name : string) : error + file :=
  match files fs !! name with
  | None => inl ErrNotExist
  | Some f => if Z.testbit (mode f) 8 then inr f else inl ErrPermission
  end.

Definition gob_Decode (f : file) : error + EventsMap :=
  match data f with
  | Gob events => inr events
  | Garbage => inl ErrDecode
  end.

(** [fsutil.CreateRenamingWriter(filename, perm)] followed by the writes and
    [Close]: the content goes to a temporary file created with mode [perm],
    which is renamed over [filename]. *)
Definition renamingWrite (fs : FS) (name : string) (perm : Z) (d : fileData)
    : error + FS :=
  if readOnly fs then inl ErrReadOnly
  else inr {| files := <[name := {| mode := perm; data := d |}]> (files fs);
              readOnly := readOnly fs |}.

(** [saveEvents]: the file system after the call and the error returned. *)
Definition saveEvents (fs : FS) (name : string) (eventsMap : EventsMap)
    : FS * option error :=
  match renamingWrite fs name filePerms (Gob eventsMap) with
  | inl err => (fs, Some err)
  | inr fs' => (fs', None)
  end.

(** [loadEvents], the loop over one user's saved slice (lines 60-75). *)
Fixpoint loadList (minCT : Z) (h : list eventType)
    (eventsList : eventsListType) (eventsSlice : list EventType)
    : list eventType * eventsListType :=
  match eventsSlice with
  | [] => (h, eventsList)
  | savedEvent :: rest =>
      if (CreateTime savedEvent <? minCT)%Z
      then loadList minCT h eventsList rest
      else
        let '(h', l') := appendEvent h eventsList savedEvent in
        loadList minCT h' l' rest
  end.

(** [loadEvents], the loop over the users (lines 58-77). *)
Fixpoint loadUsers (order : list string) (minCT : Z) (events : EventsMap)
    (h : list eventType) (m : gmap string eventsListType)
    : list eventType * gmap string eventsListType :=
  match order with
  | [] => (h, m)
  | username :: rest =>
      match events !! username with
      | None => loadUsers rest minCT events h m
      | Some eventsSlice =>
          let '(h', l) :=
            loadList minCT h {| newest := None; oldest := None |}
              eventsSlice in
          loadUsers rest minCT events h' (<[username := l]> m)
      end
  end.

(** [loadEvents]: the pair the source returns.  The first component is
    [None] for Go's nil map; the nodes of the loaded chains come with the
    map, in a fresh arena. *)
Definition loadEvents (fs : FS) (name : string) (order : list string)
    (now : Z)
    : option (list eventType * gmap string eventsListType) * option error :=
  match os_Open fs name with
  | inl err => (Some ([], ∅), Some err)
  | inr f =>
      match gob_Decode f with
      | inl err => (None, Some err)
      | inr events =>
          (Some (loadUsers order (minCreateTime now) events [] ∅), None)
      end
  end.

(** [newEventRecorder]: the pair the source returns ([None] for nil).  The
    goroutine it starts is [eventLoop] below.  A nil [eventsMap] reads like
    an empty one. *)
Definition newEventRecorder (fs : FS) (name : string) (order : list string)
    (now : Z) : option EventRecorder * option error :=
  let '(loaded, err) := loadEvents fs name order now in
  match err with
  | Some e =>
      if negb (IsNotExist e) then (None, Some e)
      else
        let '(h, m) := default ([], ∅) loaded in
        (Some {| filename := name; heap := h; eventsMap := m |}, None)
  | None =>
      let '(h, m) := default ([], ∅) loaded in
      (Some {| filename := name; heap := h; eventsMap := m |}, None)
  end.

(** ** The actor loop *)

Record ssh_Certificate := mkSshCert {
  ValidPrincipals : list string;
  ValidBefore : Z
}.

Record x509_Certificate := mkX509Cert {
  Subject_CommonName : string;
  NotAfter : Z
}.

(** What one iteration of the [select] receives.  [ready] tells whether the
    reply channel of a request can take a value at once. *)
Inductive message :=
  | SshCert (cert : ssh_Certificate)
  | X509Cert (cert : x509_Certificate)
  | HourlyTimer
  | RequestEvents (ready : bool)
  | SaveTimer.

(** What one iteration reads from its environment: the clock, the
    conversion [uint32(time.Until(t).Seconds() + 0.5)] at that moment for an
    expiry [t], the time a snapshot build takes, and the order in which a
    range visits the users. *)
Record readings := mkReadings {
  unixNow : Z;
  secondsUntil : Z → Z;
  computeTime : Z;
  rangeOrder : list string
}.

Record loopState := mkLoop {
  recorder : EventRecorder;
  snapCache : cache;
  saveTimerArmed : bool;
  disk : FS;
  logged : list error
}.

Inductive outcome :=
  | Panic                       (* a run-time panic ends the process *)
  | Diverge                     (* the iteration does not end *)
  | Next (st : loopState) (reply : option Events).

Definition invalidate (c : cache) : cache :=
  {| snapshots := snapshots c; lastEvents := None |}.

(** The statements of [eventLoop] before the [for]. *)
Definition eventLoop_init (sr : EventRecorder) (fs : FS) (computeTime : Z)
    : option loopState :=
  match getEventsList sr {| snapshots := []; lastEvents := None |}
          computeTime with
  | None => None
  | Some (c, _) =>
      Some {| recorder := sr; snapCache := c; saveTimerArmed := false;
              disk := fs; logged := [] |}
  end.

(** One iteration of the [for { select { ... } }]. *)
Definition eventLoop_step (r : readings) (st : loopState) (msg : message)
    : outcome :=
  match msg with
  | SshCert cert =>
      match ValidPrincipals cert !! 0%nat with
      | None => Panic          (* index out of range *)
      | Some username =>
          Next {| recorder :=
                    recordEvent (recorder st) username
                      (secondsUntil r (ValidBefore cert)) true false
                      (unixNow r);
                  snapCache := invalidate (snapCache st);
                  saveTimerArmed := true;
                  disk := disk st; logged := logged st |} None
      end
  | X509Cert cert =>
      Next {| recorder :=
                recordEvent (recorder st) (Subject_CommonName cert)
                  (secondsUntil r (NotAfter cert)) false true (unixNow r);
              snapCache := invalidate (snapCache st);
              saveTimerArmed := true;
              disk := disk st; logged := logged st |} None
  | HourlyTimer =>
      match expireOldEvents (rangeOrder r) (unixNow r) (recorder st) with
      | None => Diverge
      | Some (true, sr') =>
          Next {| recorder := sr';
                  snapCache := invalidate (snapCache st);
                  saveTimerArmed := true;
                  disk := disk st; logged := logged st |} None
      | Some (false, sr') =>
          Next {| recorder := sr'; snapCache := snapCache st;
                  saveTimerArmed := saveTimerArmed st;
                  disk := disk st; logged := logged st |} None
      end
  | RequestEvents ready =>
      match getEventsList (recorder st) (snapCache st) (computeTime r) with
      | None => Diverge
      | Some (c, p) =>
          match snapshots c !! p with
          | None => Panic      (* nil dereference *)
          | Some events =>
              Next {| recorder := recorder st; snapCache := c;
                      saveTimerArmed := saveTimerArmed st;
                      disk := disk st; logged := logged st |}
                   (if ready then Some events else None)
          end
      end
  | SaveTimer =>
      match getEventsList (recorder st) (snapCache st) (computeTime r) with
      | None => Diverge
      | Some (c, p) =>
          match snapshots c !! p with
          | None => Panic
          | Some events =>
              let '(fs', err) :=
                saveEvents (disk st) (filename (recorder st))
                  (Events_map events) in
              Next {| recorder := recorder st; snapCache := c;
                      saveTimerArmed := false;
                      disk := fs';
                      logged := match err with
                                | Some e => logged st ++ [e]
                                | None => logged st
                                end |} None
          end
      end
  end.

(** Whether an iteration changed the event store: an append of either kind,
    or an expiration pass that removed something. *)
Definition is_mutation (r : readings) (st : loopState) (msg : message)
    : bool :=
  match msg with
  | SshCert _ | X509Cert _ => true
  | HourlyTimer =>
      match expireOldEvents (rangeOrder r) (unixNow r) (recorder st) with
      | Some (changed, _) => changed
      | None => false
      end
  | RequestEvents _ | SaveTimer => false
  end.

(** A run of the loop over a sequence of iterations: the final state and
    the number of mutations, when every iteration ends without a panic. *)
Fixpoint eventLoop_run (trace : list (readings * message)) (st : loopState)
    : option (loopState * nat) :=
  match trace with
  | [] => Some (st, O)
  | (r, msg) :: rest =>
      match eventLoop_step r st msg with
      | Next st' _ =>
          match eventLoop_run rest st' with
          | Some (st'', k) =>
              Some (st'', ((if is_mutation r st msg then 1 else 0) + k)%nat)
          | None => None
          end
      | _ => None
      end
  end.

(** ** Package lib/pwauth/ldap *)

Module Ldap.

(** Go's [error] values of this package: a message. *)
Definition err := string.

(** [simplestorage.SimpleStore], the interface of the signed store. *)
Class SimpleStore (S : Type) := {
  UpsertSigned : S → string → Z → Z → string → S * option err;
  GetSigned : S → string → Z → S * (bool * string * option err);
  DeleteSigned : S → string → Z → S * option err
}.

(** The collaborators of [authutil] and the clock, as one authentication
    sees them: the LDAP bind over the network, the Argon2 hash (salted at
    random) and its comparison, [fmt.Sprintf] with one argument. *)
Record backend := mkBackend {
  CheckLDAPUserPassword : string → string → string → Z → bool * option err;
  Argon2MakeNewHash : string → string * option err;
  Argon2CompareHashAndPassword : string → string → option err;
  Sprintf : string → string → string;
  timeNow : Z
}.

Definition defaultCacheDuration : Z := (3600 * 96)%Z.
Definition passwordDataType : Z := 1.

Record cacheCredentialEntry := mkEntry {
  Hash : string;
  Expiration : Z
}.

Record PasswordAuthenticator (S : Type) := mkPA {
  ldapURL : list string;
  bindPattern : list string;
  timeoutSecs : Z;
  logger : bool;                 (* pa.logger != nil *)
  expirationDuration : Z;
  storage : option S;            (* nil or a store *)
  cachedCredentials : gmap string cacheCredentialEntry
}.
Arguments ldapURL {S} _.
Arguments bindPattern {S} _.
Arguments timeoutSecs {S} _.
Arguments logger {S} _.
Arguments expirationDuration {S} _.
Arguments storage {S} _.
Arguments cachedCredentials {S} _.

(** What the logger has received: level and format string. *)
Definition logLine := (Z * string)%type.

Section Authenticator.
Context {S : Type} `{SimpleStore S}.
Variable be : backend.

Definition set_storage (pa : PasswordAuthenticator S) (s : S)
    : PasswordAuthenticator S :=
  {| ldapURL := ldapURL pa; bindPattern := bindPattern pa;
     timeoutSecs := timeoutSecs pa; logger := logger pa;
     expirationDuration := expirationDuration pa;
     storage := Some s; cachedCredentials := cachedCredentials pa |}.

Definition set_cached (pa : PasswordAuthenticator S)
    (c : gmap string cacheCredentialEntry) : PasswordAuthenticator S :=
  {| ldapURL := ldapURL pa; bindPattern := bindPattern pa;
     timeoutSecs := timeoutSecs pa; logger := logger pa;
     expirationDuration := expirationDuration pa;
     storage := storage pa; cachedCredentials := c |}.

Definition Debugf (pa : PasswordAuthenticator S) (level : Z) (format : string)
    (log : list logLine) : list logLine :=
  if logger pa then log ++ [(level, format)] else log.

Definition convertToBindDN (username bind_pattern : string) : string :=
  Sprintf be bind_pattern username.

(** [updateOrDeletePasswordHash]: the authenticator and the log after the
    call, and the error returned. *)
Definition updateOrDeletePasswordHash (pa : PasswordAuthenticator S)
    (log : list logLine) (valid : bool) (username password : string)
    : PasswordAuthenticator S * list logLine * option err :=
  if valid then
    match Argon2MakeNewHash be password with
    | (_, Some _) =>
        (pa,
         Debugf pa 0 "Failure making new hash for password for user %s" log,
         None)
    | (hash, None) =>
        let expiration := (timeNow be + expirationDuration pa)%Z in
        match storage pa with
        | None =>
            (set_cached pa
               (<[username := {| Hash := hash; Expiration := expiration |}]>
                  (cachedCredentials pa)),
             log, None)
        | Some s =>
            match UpsertSigned s username passwordDataType expiration hash
            with
            | (s', Some _) =>
                (set_storage pa s',
                 Debugf pa 0
                   "Failure inserting password into db for user %s" log,
                 None)
            | (s', None) => (set_storage pa s', log, None)
            end
        end
    end
  else
    match storage pa with
    | None =>
        match cachedCredentials pa !! username with
        | Some cachedCred =>
            match Argon2CompareHashAndPassword be (Hash cachedCred) password
            with
            | None =>
                (set_cached pa (delete username (cachedCredentials pa)),
                 log, None)
            | Some _ => (pa, log, None)
            end
        | None => (pa, log, None)
        end
    | Some s =>
        match GetSigned s username passwordDataType with
        | (s', (_, _, Some _)) => (set_storage pa s', log, None)
        | (s', (true, hash, None)) =>
            match Argon2CompareHashAndPassword be hash password with
            | None =>
                (set_storage pa
                   (fst (DeleteSigned s' username passwordDataType)),
                 log, None)
            | Some _ => (set_storage pa s', log, None)
            end
        | (s', (false, _, None)) => (set_storage pa s', log, None)
        end
    end.

(** What [passwordAuthenticate] returns: [valid], [err], and the
    authenticator and the log after the call. *)
Record authResult := mkResult {
  res_valid : bool;
  res_err : option err;
  res_pa : PasswordAuthenticator S;
  res_log : list logLine
}.

(** The inner loop over the bind patterns for one URL: [Some] is the
    [return] in the loop body, [None] the end of the loop, with the log. *)
Fixpoint tryPatterns (pa : PasswordAuthenticator S) (log : list logLine)
    (u : string) (patterns : list string) (username password : string)
    : authResult + list logLine :=
  match patterns with
  | [] => inr log
  | bindPattern :: rest =>
      let bindDN := convertToBindDN username bindPattern in
      match CheckLDAPUserPassword be u bindDN password (timeoutSecs pa) with
      | (_, Some _) =>
          tryPatterns pa
            (Debugf pa 1 "Error checking LDAP user password url= %s" log)
            u rest username password
      | (valid, None) =>
          let '(pa', log', e) :=
            updateOrDeletePasswordHash pa log valid username password in
          let log'' :=
            match e with
            | Some _ =>
                Debugf pa 0 "Updating local password hash for user %s" log'
            | None => log'
            end in
          inl {| res_valid := valid; res_err := None;
                 res_pa := pa'; res_log := log'' |}
      end
  end.

(** The outer loop over the URLs. *)
Fixpoint tryURLs (pa : PasswordAuthenticator S) (log : list logLine)
    (urls : list string) (username password : string)
    : authResult + list logLine :=
  match urls with
  | [] => inr log
  | u :: rest =>
      match tryPatterns pa log u (bindPattern pa) username password with
      | inl r => inl r
      | inr log' => tryURLs pa log' rest username password
      end
  end.

(** [passwordAuthenticate]. *)
Definition passwordAuthenticate (pa : PasswordAuthenticator S)
    (username password : string) : authResult :=
  match tryURLs pa [] (ldapURL pa) username password with
  | inl r => r
  | inr log =>
      match storage pa with
      | None =>
          match cachedCredentials pa !! username with
          | Some cachedCred =>
              match Argon2CompareHashAndPassword be (Hash cachedCred) password
              with
              | None =>
                  if (0 <? Expiration cachedCred - timeNow be)%Z
                  then {| res_valid := true; res_err := None;
                          res_pa := pa; res_log := log |}
                  else {| res_valid := false; res_err := None;
                          res_pa := pa; res_log := log |}
              | Some _ => {| res_valid := false; res_err := None;
                             res_pa := pa; res_log := log |}
              end
          | None => {| res_valid := false; res_err := None;
                       res_pa := pa; res_log := log |}
          end
      | Some s =>
          match GetSigned s username passwordDataType with
          | (s', (_, _, Some _)) =>
              {| res_valid := false; res_err := None;
                 res_pa := set_storage pa s'; res_log := log |}
          | (s', (true, hash, None)) =>
              match Argon2CompareHashAndPassword be hash password with
              | None => {| res_valid := true; res_err := None;
                           res_pa := set_storage pa s'; res_log := log |}
              | Some _ => {| res_valid := false; res_err := None;
                             res_pa := set_storage pa s'; res_log := log |}
              end
          | (s', (false, _, None)) =>
              {| res_valid := false; res_err := None;
                 res_pa := set_storage pa s'; res_log := log |}
          end
      end
  end.

End Authenticator.

Definition browserResponseTimeoutSeconds : Z := 7.

(** [newAuthenticator], the loop over [urllist] (lines 23-29):
    [authutil.ParseLDAPURL] is a collaborator, [parsed] is
    [authenticator.ldapURL] so far. *)
Fixpoint parseURLs (ParseLDAPURL : string → string + err)
    (urllist : list string) (parsed : list string) : list string + err :=
  match urllist with
  | [] => inl parsed
  | stringURL :: rest =>
      match ParseLDAPURL stringURL with
      | inr e => inr e
      | inl url => parseURLs ParseLDAPURL rest (parsed ++ [url])
      end
  end.

(** [newAuthenticator]: the pair the source returns ([None] for nil).  The
    product [timeoutSecs*len(ldapURL)] is taken in Go's [uint], 64 bits
    wide. *)
Definition newAuthenticator {S : Type}
    (ParseLDAPURL : string → string + err)
    (urllist : list string) (bindPattern : list string) (timeoutSecs : Z)
    (storage : option S) (logger : bool)
    : option (PasswordAuthenticator S) * option err :=
  match parseURLs ParseLDAPURL urllist [] with
  | inr e => (None, Some e)
  | inl urls =>
      let n := Z.of_nat (length urls) in
      (Some {| ldapURL := urls;
               bindPattern := bindPattern;
               timeoutSecs :=
                 if (browserResponseTimeoutSeconds
                       <? uint64 (timeoutSecs * n))%Z
                 then (browserResponseTimeoutSeconds / n)%Z
                 else timeoutSecs;
               logger := logger;
               expirationDuration := defaultCacheDuration;
               storage := storage;
               cachedCredentials := ∅ |},
       None)
  end.

(** A store for examples: a map, and a switch that makes every operation
    fail. *)
Record mapStore := mkMapStore {
  entries : gmap string (Z * string);
  broken : bool
}.

#[global] Instance mapStore_SimpleStore : SimpleStore mapStore := {|
  UpsertSigned s username _ expiration d :=
    if broken s then (s, Some "store unreachable")
    else ({| entries := <[username := (expiration, d)]> (entries s);
             broken := false |}, None);
  GetSigned s username _ :=
    if broken s then (s, (false, EmptyString, Some "store unreachable"))
    else match entries s !! username with
         | Some (_, d) => (s, (true, d, None))
         | None => (s, (false, EmptyString, None))
         end;
  DeleteSigned s username _ :=
    if broken s then (s, Some "store unreachable")
    else ({| entries := delete username (entries s); broken := false |},
          None)
|}.

End Ldap.

(** ** Abstraction of the event store

    What a chain holds, read the way the source reads it: along [newer]
    from [oldest] (as [expireOldEvents] does) and along [older] from
    [newest] (as [getEventsList] does, [walkOlder] above). *)
Fixpoint walkNewer (fuel : nat) (h : list eventType) (event : option ptr)
    : option (list EventType) :=
  match event with
  | None => Some []
  | Some p =>
      match fuel with
      | O => None
      | S fuel' =>
          match h !! p with
          | None => None
          | Some node =>
              match walkNewer fuel' h (newer node) with
              | Some rest => Some (ev node :: rest)
              | None => None
              end
          end
      end
  end.

Definition userList (sr : EventRecorder) (username : string)
    : eventsListType :=
  default {| newest := None; oldest := None |} (eventsMap sr !! username).

(** A user's history, oldest record first. *)
Definition historyOf (sr : EventRecorder) (username : string)
    : option (list EventType) :=
  walkNewer (length (heap sr)) (heap sr) (oldest (userList sr username)).

(** The same history read from the newest end. *)
Definition historyNewestFirst (sr : EventRecorder) (username : string)
    : option (list EventType) :=
  walkOlder (length (heap sr)) (heap sr) (newest (userList sr username)).

(** The nodes of a chain, oldest first: address and record. *)
Abbreviation nodes := (list (ptr * EventType)).

Definition prev_of (ns : nodes) (i : nat) : option ptr :=
  match i with
  | O => None
  | S j => fst <$> ns !! j
  end.

(** Every node of [ns] is in the arena, holds its record, and points to its
    neighbours in [ns] ([nil] at the two ends). *)
Definition linked (h : list eventType) (ns : nodes) : Prop :=
  ∀ i p e, ns !! i = Some (p, e) →
    h !! p = Some {| ev := e; older := prev_of ns i;
                     newer := fst <$> ns !! S i |}.

(** A well-formed chain: linked, without a repeated node, and bounded by
    [oldest] and [newest]. *)
Record chain (h : list eventType) (l : eventsListType) (ns : nodes)
    : Prop := mkChain {
  chain_linked : linked h ns;
  chain_nodup : NoDup ns.*1;
  chain_oldest : oldest l = fst <$> head ns;
  chain_newest : newest l = fst <$> last ns
}.

(** A well-formed store: every user's list is a well-formed chain, and no
    node belongs to two users. *)
Record store_inv (h : list eventType) (m : gmap string eventsListType)
    (G : gmap string nodes) : Prop := mkStoreInv {
  inv_dom : ∀ u, m !! u = None ↔ G !! u = None;
  inv_chain : ∀ u l ns, m !! u = Some l → G !! u = Some ns → chain h l ns;
  inv_disjoint : ∀ u1 u2 ns1 ns2 p,
    u1 ≠ u2 → G !! u1 = Some ns1 → G !! u2 = Some ns2 →
    p ∈ ns1.*1 → p ∈ ns2.*1 → False
}.

(** The recorder [sr] holds the histories [M] (oldest record first). *)
Definition represents (sr : EventRecorder) (M : EventsMap) : Prop :=
  ∃ G : gmap string nodes,
    store_inv (heap sr) (eventsMap sr) G ∧ M = (λ ns : nodes, ns.*2) <$> G.

(** Records in non-decreasing order of [CreateTime]. *)
Fixpoint time_sorted (l : list EventType) : Prop :=
  match l with
  | [] => True
  | e :: rest =>
      (∀ e', e' ∈ rest → (CreateTime e <= CreateTime e')%Z) ∧ time_sorted rest
  end.

(** The records that a cutoff keeps. *)
Definition unexpired (minCT : Z) (l : list EventType) : list EventType :=
  filter (λ e, (minCT <= CreateTime e)%Z) l.

(** The record that [recordEvent] appends for one notification. *)
Record notification := mkNotification {
  n_lifetime : Z;
  n_ssh : bool;
  n_x509 : bool;
  n_now : Z
}.

Definition record_of (n : notification) : EventType :=
  {| CreateTime := uint64 (n_now n);
     LifetimeSeconds := quantizeLifetime (n_lifetime n);
     Ssh := n_ssh n; X509 := n_x509 n |}.

(** A sequence of [recordEvent] calls for one user. *)
Definition recordEvents (sr : EventRecorder) (username : string)
    (ns : list notification) : EventRecorder :=
  foldl (λ sr n, recordEvent sr username (n_lifetime n) (n_ssh n) (n_x509 n)
                   (n_now n)) sr ns.

(** The histories after a sequence of appends for one user. *)
Definition appended (M : EventsMap) (u : string) (es : list EventType)
    : EventsMap :=
  match es with
  | [] => M
  | _ => <[u := default [] (M !! u) ++ es]> M
  end.

(** The recorder that [newEventRecorder] starts with when there is no
    history file. *)
Definition emptyRecorder (name : string) : EventRecorder :=
  {| filename := name; heap := []; eventsMap := ∅ |}.

(** The lifetime found in the store after recording one issuance with the
    lifetime [s] in an empty recorder. *)
Definition recordedLifetime (s : Z) : option Z :=
  match historyNewestFirst
          (recordEvent (emptyRecorder "events") "user" s true false 0) "user"
  with
  | Some (e :: _) => Some (LifetimeSeconds e)
  | _ => None
  end.

(** The nodes that the loop of [expireOldEvents] leaves in a chain: it
    unlinks nodes from the oldest end up to the first one that is not
    before the cutoff. *)
Fixpoint drop_expired (minCT : Z) (ns : nodes) : nodes :=
  match ns with
  | [] => []
  | (p, e) :: rest =>
      if (minCT <=? CreateTime e)%Z then ns else drop_expired minCT rest
  end.

(** Whether the loop unlinks at least one node of a chain. *)
Definition has_expired (minCT : Z) (ns : nodes) : bool :=
  match ns with
  | [] => false
  | (p, e) :: _ => negb (minCT <=? CreateTime e)%Z
  end.

(** The chains after the loop has visited the users of [order]. *)
Fixpoint expire_in (order : list string) (minCT : Z) (G : gmap string nodes)
    : gmap string nodes :=
  match order with
  | [] => G
  | u :: rest => expire_in rest minCT (alter (drop_expired minCT) u G)
  end.

Definition any_expired (order : list string) (minCT : Z)
    (G : gmap string nodes) : bool :=
  existsb (λ u, match G !! u with
                | Some ns => has_expired minCT ns
                | None => false
                end) order.

(** A store for examples: one user with an SSH issuance at time 5000000
    and an X.509 issuance a minute later. *)
Definition exampleNotifications : list notification :=
  [mkNotification 3599 true false 5000000;
   mkNotification 30 false true 5000060].

Definition exampleRecorder : EventRecorder :=
  recordEvents (emptyRecorder "events") "alice" exampleNotifications.

Definition exampleHistories : EventsMap :=
  appended ∅ "alice" (record_of <$> exampleNotifications).

(** File systems for examples: an empty one, and one whose history file
    does not decode. *)
Definition emptyFS : FS := {| files := ∅; readOnly := false |}.

Definition garbageFS (name : string) : FS :=
  {| files := {[ name := {| mode := filePerms; data := Garbage |} ]};
     readOnly := false |}.

(** The permission bits that give others any access. *)
Definition othersBits : Z := Z.lor (Z.lor S_IROTH S_IWOTH) S_IXOTH.

(** The number of snapshot builds that a cache still owes: one when the
    cached pointer is nil. *)
Definition pending (c : cache) : nat :=
  match lastEvents c with
  | Some _ => 0
  | None => 1
  end.

(** The number of snapshots built so far. *)
Definition builds (st : loopState) : nat := length (snapshots (snapCache st)).

(** A loop state for examples: the loop started on the example store. *)
Definition exampleLoop : loopState :=
  default {| recorder := exampleRecorder;
             snapCache := {| snapshots := []; lastEvents := None |};
             saveTimerArmed := false; disk := emptyFS; logged := [] |}
    (eventLoop_init exampleRecorder emptyFS 3).

Definition exampleReadings : readings :=
  {| unixNow := 5000100; secondsUntil := λ t, uint32 (t - 5000100);
     computeTime := 3; rangeOrder := ["alice"; "bob"] |}.

Definition exampleTrace : list (readings * message) :=
  [(exampleReadings, RequestEvents true);
   (exampleReadings, RequestEvents false);
   (exampleReadings, SshCert (mkSshCert ["bob"] 5003700));
   (exampleReadings, RequestEvents true);
   (exampleReadings, RequestEvents true);
   (exampleReadings, SaveTimer);
   (exampleReadings, HourlyTimer);
   (exampleReadings, X509Cert (mkX509Cert "alice" 5000160));
   (exampleReadings, SaveTimer);
   (exampleReadings, RequestEvents true)].

(** Authenticators and backends for examples: a directory that answers and
    rejects every password, and one that cannot be reached. *)
Definition exampleAuthenticator : Ldap.PasswordAuthenticator Ldap.mapStore :=
  {| Ldap.ldapURL := ["ldaps://ldap.example.com"];
     Ldap.bindPattern := ["uid=%s,ou=people,dc=example,dc=com"];
     Ldap.timeoutSecs := 3; Ldap.logger := true;
     Ldap.expirationDuration := Ldap.defaultCacheDuration;
     Ldap.storage := None; Ldap.cachedCredentials := ∅ |}.

Definition rejectingBackend : Ldap.backend :=
  {| Ldap.CheckLDAPUserPassword := λ _ _ _ _, (false, None);
     Ldap.Argon2MakeNewHash := λ password, (password, None);
     Ldap.Argon2CompareHashAndPassword := λ hash password,
       if decide (hash = password) then None else Some "mismatch";
     Ldap.Sprintf := λ pattern arg, pattern +:+ arg;
     Ldap.timeNow := 5000000 |}.

Definition unreachableBackend : Ldap.backend :=
  {| Ldap.CheckLDAPUserPassword := λ _ _ _ _, (false, Some "dial timeout");
     Ldap.Argon2MakeNewHash := λ password, (password, None);
     Ldap.Argon2CompareHashAndPassword := λ hash password,
       if decide (hash = password) then None else Some "mismatch";
     Ldap.Sprintf := λ pattern arg, pattern +:+ arg;
     Ldap.timeNow := 5000000 |}.

(** Saving and loading back: the [SaveTimer] iteration of the loop writes
    the store to the history file, and [newEventRecorder] reads that file
    at the next start. *)
Definition saveThenLoad (r : readings) (st : loopState) (order : list string)
    (now : Z) : option EventRecorder :=
  match eventLoop_step r st SaveTimer with
  | Next st' _ =>
      (newEventRecorder (disk st') (filename (recorder st')) order now).1
  | _ => None
  end.

(** The invariant of the loop: the store is well formed and holds the
    histories [M], and a cached snapshot is the snapshot of the store as it
    is now (every history newest first). *)
Definition loop_inv (st : loopState) (M : EventsMap) : Prop :=
  represents (recorder st) M
  ∧ ∀ p, lastEvents (snapCache st) = Some p →
         ∃ events, snapshots (snapCache st) !! p = Some events
                   ∧ Events_map events = reverse <$> M.

(** The records that the loop of [expireOldEvents] leaves in a history,
    whatever its order: it drops records from the oldest end up to the
    first one that is not before the cutoff. *)
Fixpoint drop_before (minCT : Z) (l : list EventType) : list EventType :=
  match l with
  | [] => []
  | e :: rest =>
      if (minCT <=? CreateTime e)%Z then l else drop_before minCT rest
  end.

(** Every range of a run visits each user once at most. *)
Definition orders_NoDup (trace : list (readings * message)) : Prop :=
  Forall (λ rm : readings * message, NoDup (rangeOrder rm.1)) trace.

(** A history file for examples: one user, two records, the newer one
    first. *)
Definition exampleSaved : EventsMap :=
  {[ "alice" := [mkEventType 5000060 30 false true;
                 mkEventType 5000000 3600 true false] ]}.

Definition exampleSavedFile : file :=
  {| mode := filePerms; data := Gob exampleSaved |}.

Definition exampleSavedFS : FS :=
  {| files := {[ "events" := exampleSavedFile ]}; readOnly := false |}.

(** The answer of one bind: the validity, when the check returns no
    error. *)
Definition ldapAnswer {S : Type} (be : Ldap.backend)
    (pa : Ldap.PasswordAuthenticator S) (u username password bp : string)
    : option bool :=
  match Ldap.CheckLDAPUserPassword be u
          (Ldap.convertToBindDN be username bp) password
          (Ldap.timeoutSecs pa) with
  | (valid, None) => Some valid
  | (_, Some _) => None
  end.

(** The answers of the directory in the order in which
    [passwordAuthenticate] asks: every URL in turn, and for each URL every
    bind pattern in turn. *)
Definition ldapAnswers {S : Type} (be : Ldap.backend)
    (pa : Ldap.PasswordAuthenticator S) (username password : string)
    : list bool :=
  u ← Ldap.ldapURL pa;
  omap (ldapAnswer be pa u username password) (Ldap.bindPattern pa).

(** A backend for examples that accepts every password. *)
Definition acceptingBackend : Ldap.backend :=
  {| Ldap.CheckLDAPUserPassword := λ _ _ _ _, (true, None);
     Ldap.Argon2MakeNewHash := λ password, (password, None);
     Ldap.Argon2CompareHashAndPassword := λ hash password,
       if decide (hash = password) then None else Some "mismatch";
     Ldap.Sprintf := λ pattern arg, pattern +:+ arg;
     Ldap.timeNow := 5000000 |}.

(** A parser of URLs for examples: the scheme must be [ldaps]. *)
Definition exampleParse (stringURL : string) : string + Ldap.err :=
  if decide (String.substring 0 8 stringURL = "ldaps://")
  then inl stringURL else inr "unsupported scheme".

(** What an authentication of [username] may change in an authenticator:
    nothing of its configuration, and no cached hash of another user. *)
Definition keeps_configuration {S : Type} (username : string)
    (pa pa' : Ldap.PasswordAuthenticator S) : Prop :=
  Ldap.ldapURL pa' = Ldap.ldapURL pa
  ∧ Ldap.bindPattern pa' = Ldap.bindPattern pa
  ∧ Ldap.timeoutSecs pa' = Ldap.timeoutSecs pa
  ∧ Ldap.logger pa' = Ldap.logger pa
  ∧ Ldap.expirationDuration pa' = Ldap.expirationDuration pa
  ∧ (Ldap.storage pa' = None ↔ Ldap.storage pa = None)
  ∧ (is_Some (Ldap.storage pa) →
     Ldap.cachedCredentials pa' = Ldap.cachedCredentials pa)
  ∧ ∀ other, other ≠ username →
      Ldap.cachedCredentials pa' !! other
      = Ldap.cachedCredentials pa !! other.

(** * Properties *)

(** ** Lifetime quantization *)

Lemma uint32_small z : is_uint32 z → uint32 z = z.
Proof. unfold is_uint32, uint32. intros Hz. apply Z.mod_small. lia. Qed.

Lemma quantizeLifetime_refines s :
  is_uint32 s → quantizeLifetime s = quantize_spec s.
Proof.
  unfold is_uint32, quantizeLifetime, quantize_spec, uint32. intros Hs.
  destruct (3600 <=? s)%Z eqn:Hh.
  - apply Z.leb_le in Hh.
    destruct (Z_lt_dec (s + 60) (2 ^ 32)) as [Hlt | Hge].
    + rewrite (Z.mod_small (s + 60)) by lia.
      destruct (s / 3600 <? (s + 60) / 3600)%Z eqn:Hc; [|done].
      apply Z.mod_small.
      pose proof (Z.mul_div_le (s + 60) 3600 ltac:(lia)).
      pose proof (Z.div_pos (s + 60) 3600 ltac:(lia) ltac:(lia)). lia.
    + assert (Hw : ((s + 60) mod 2 ^ 32 = s + 60 - 2 ^ 32)%Z).
      { symmetry. apply (Z.mod_unique_pos _ _ 1); lia. }
      rewrite Hw.
      assert (Hq : ((s + 60 - 2 ^ 32) / 3600 = 0)%Z)
        by (apply Z.div_small; lia).
      rewrite Hq.
      assert (H1 : (s / 3600 = 1193046)%Z)
        by (symmetry; apply (Z.div_unique_pos _ _ _ (s - 1193046 * 3600));
            lia).
      assert (H2 : ((s + 60) / 3600 = 1193046)%Z)
        by (symmetry;
            apply (Z.div_unique_pos _ _ _ (s + 60 - 1193046 * 3600)); lia).
      rewrite H1, H2. reflexivity.
  - apply Z.leb_gt in Hh.
    destruct (60 <=? s)%Z eqn:Hm; [|done].
    apply Z.leb_le in Hm.
    rewrite (Z.mod_small (s + 1)) by lia.
    destruct (s / 60 <? (s + 1) / 60)%Z eqn:Hc; [|done].
    apply Z.mod_small.
    pose proof (Z.mul_div_le (s + 1) 60 ltac:(lia)).
    pose proof (Z.div_pos (s + 1) 60 ltac:(lia) ltac:(lia)). lia.
Qed.

(** ** Chains in the arena *)

Section Chains.
Implicit Types (h : list eventType) (ns : nodes) (l : eventsListType).

Lemma linked_lookup_lt h ns i p e :
  linked h ns → ns !! i = Some (p, e) → p < length h.
Proof. intros Hl Hi. apply Hl in Hi. by apply lookup_lt_Some in Hi. Qed.

Lemma linked_elem_lt h ns p :
  linked h ns → p ∈ ns.*1 → p < length h.
Proof.
  intros Hl Hp. apply list_elem_of_fmap in Hp as [[q e] [-> Hin]].
  apply list_elem_of_lookup in Hin as [i Hi]. eauto using linked_lookup_lt.
Qed.

Lemma linked_length_le h ns :
  linked h ns → NoDup ns.*1 → length ns ≤ length h.
Proof.
  intros Hl Hnd.
  assert (Hsub : ns.*1 ⊆+ seq 0 (length h)).
  { apply NoDup_submseteq; [done|]. intros p Hp.
    apply elem_of_seq. pose proof (linked_elem_lt _ _ _ Hl Hp). lia. }
  apply submseteq_length in Hsub.
  by rewrite length_fmap, length_seq in Hsub.
Qed.

Lemma linked_nil h : linked h [].
Proof. intros i p e Hi. by rewrite lookup_nil in Hi. Qed.

Lemma chain_nil h : chain h {| newest := None; oldest := None |} [].
Proof. split; [apply linked_nil | constructor | done | done]. Qed.

(** The walk along [older] from the node at position [i]. *)
Lemma walkOlder_linked h ns i fuel :
  linked h ns → i < length ns → i < fuel →
  walkOlder fuel h (fst <$> ns !! i) = Some (reverse (take (S i) ns).*2).
Proof.
  intros Hl. revert fuel. induction i as [|i IH]; intros fuel Hi Hf.
  - destruct (ns !! 0) as [[p e]|] eqn:H0;
      [|apply lookup_ge_None in H0; lia].
    destruct fuel as [|fuel]; [lia|]. simpl.
    rewrite (Hl _ _ _ H0). simpl.
    destruct ns as [|[p' e'] ns']; [done|]. simpl in *.
    injection H0 as -> ->. by destruct fuel.
  - destruct (ns !! S i) as [[p e]|] eqn:HS;
      [|apply lookup_ge_None in HS; lia].
    destruct fuel as [|fuel]; [lia|]. simpl.
    rewrite (Hl _ _ _ HS). simpl.
    rewrite IH by lia.
    rewrite (take_S_r ns (S i) (p, e)) by done.
    by rewrite fmap_app, reverse_app.
Qed.

(** The walk along [newer] from the node at position [i]. *)
Lemma walkNewer_linked h ns i fuel :
  linked h ns → length ns ≤ i + fuel →
  walkNewer fuel h (fst <$> ns !! i) = Some (drop i ns).*2.
Proof.
  intros Hl. revert i. induction fuel as [|fuel IH]; intros i Hf.
  - rewrite (lookup_ge_None_2 ns i) by lia. simpl.
    by rewrite drop_ge by lia.
  - destruct (ns !! i) as [[p e]|] eqn:Hi.
    + simpl. rewrite (Hl _ _ _ Hi). simpl.
      rewrite IH by lia.
      by rewrite (drop_S ns (p, e) i) by done.
    + simpl. apply lookup_ge_None in Hi. by rewrite drop_ge by lia.
Qed.

Lemma chain_walkOlder h l ns fuel :
  chain h l ns → length ns ≤ fuel →
  walkOlder fuel h (newest l) = Some (reverse ns.*2).
Proof.
  intros [Hl _ _ Hn] Hf. rewrite Hn, last_lookup.
  induction ns as [|n ns' _] using rev_ind; [by destruct fuel|].
  rewrite length_app in *. simpl in *.
  replace (pred (length ns' + 1)) with (length ns') by lia.
  rewrite walkOlder_linked; [|done|rewrite length_app; simpl; lia|lia].
  rewrite take_ge; [done|]. rewrite length_app. simpl. lia.
Qed.

Lemma chain_walkNewer h l ns fuel :
  chain h l ns → length ns ≤ fuel →
  walkNewer fuel h (oldest l) = Some ns.*2.
Proof.
  intros [Hl _ Ho _] Hf. rewrite Ho, head_lookup.
  rewrite walkNewer_linked; [by rewrite drop_0|done|lia].
Qed.

Lemma prev_of_app ns ns' i :
  i ≤ length ns → i ≠ 0 ∨ ns ≠ [] → prev_of (ns ++ ns') i = prev_of ns i.
Proof.
  intros Hi Hne. destruct i as [|j]; [done|]. simpl.
  by rewrite lookup_app_l by lia.
Qed.

(** What [appendEvent] changes in the arena: the new node and the [newer]
    field of the previous newest node. *)
Lemma appendEvent_frame h l e h' l' p :
  appendEvent h l e = (h', l') → p < length h → newest l ≠ Some p →
  h' !! p = h !! p.
Proof.
  unfold appendEvent. intros [= <- <-] Hp Hn.
  destruct (newest l) as [q|].
  - rewrite list_lookup_alter_ne by (intros ->; by apply Hn).
    by apply lookup_app_l.
  - by apply lookup_app_l.
Qed.

Lemma appendEvent_length h l e h' l' :
  appendEvent h l e = (h', l') → length h' = S (length h).
Proof.
  unfold appendEvent. intros [= <- <-].
  destruct (newest l); rewrite ?length_alter, length_app; simpl; lia.
Qed.

Lemma appendEvent_chain h l ns e h' l' :
  chain h l ns → appendEvent h l e = (h', l') →
  chain h' l' (ns ++ [(length h, e)]).
Proof.
  intros [Hl Hnd Ho Hn] Happ.
  pose proof (λ p, appendEvent_frame _ _ _ _ _ p Happ) as Hframe.
  revert Happ Hframe. unfold appendEvent. intros [= <- <-] Hframe.
  split.
  - intros i p0 e0 Hi.
    apply lookup_app_Some in Hi as [Hi | [Hge Hi]].
    + pose proof (lookup_lt_Some _ _ _ Hi) as Hlt.
      pose proof (linked_lookup_lt _ _ _ _ _ Hl Hi) as Hp0.
      rewrite prev_of_app by (first [lia | right; by intros ->]).
      destruct (decide (S i = length ns)) as [Hlast | Hnlast].
      * assert (Hq : newest l = Some p0).
        { rewrite Hn, last_lookup. replace (pred (length ns)) with i by lia.
          by rewrite Hi. }
        rewrite Hq. rewrite list_lookup_alter_eq.
        rewrite lookup_app_l by done. rewrite (Hl _ _ _ Hi). simpl.
        rewrite (lookup_ge_None_2 ns (S i)) by lia.
        rewrite lookup_app_r by lia.
        by replace (S i - length ns) with 0 by lia.
      * rewrite Hframe; [|done|].
        -- rewrite (Hl _ _ _ Hi). by rewrite (lookup_app_l ns) by lia.
        -- rewrite Hn, last_lookup. intros Heq.
           destruct (ns !! pred (length ns)) as [[q eq]|] eqn:Hq; [|done].
           simpl in Heq. injection Heq as ->.
           assert (Hi1 : ns.*1 !! i = Some p0)
             by (by rewrite list_lookup_fmap, Hi).
           assert (Hq1 : ns.*1 !! pred (length ns) = Some p0)
             by (by rewrite list_lookup_fmap, Hq).
           pose proof (NoDup_lookup _ _ _ _ Hnd Hi1 Hq1). lia.
    + destruct (i - length ns) as [|k] eqn:Hk; [|done].
      simpl in Hi. injection Hi as <- <-.
      assert (i = length ns) as -> by lia.
      rewrite (lookup_ge_None_2 (ns ++ _) (S (length ns)))
        by (rewrite length_app; simpl; lia).
      assert (Hprev : prev_of (ns ++ [(length h, e)]) (length ns) = newest l).
      { rewrite Hn, last_lookup.
        destruct (decide (ns = [])) as [-> | Hne]; [done|].
        rewrite prev_of_app by (first [lia | by right]).
        by destruct ns. }
      rewrite Hprev.
      destruct (newest l) as [q|] eqn:Hq.
      * assert (q < length h).
        { rewrite Hn in Hq.
          destruct (last ns) as [[q' eq']|] eqn:Hlast; [|done].
          simpl in Hq. simplify_eq.
          apply last_Some_elem_of in Hlast.
          apply (linked_elem_lt h ns); [done|].
          apply list_elem_of_fmap. eexists. split; [|exact Hlast].
          simpl in *. congruence. }
        rewrite list_lookup_alter_ne by lia.
        rewrite lookup_app_r by lia. by rewrite Nat.sub_diag.
      * rewrite lookup_app_r by lia. by rewrite Nat.sub_diag.
  - rewrite fmap_app. apply NoDup_app. split; [done|]. split.
    + intros p Hp Hp'. apply list_elem_of_singleton in Hp'.
      pose proof (linked_elem_lt _ _ _ Hl Hp). simpl in Hp'. lia.
    + apply NoDup_singleton.
  - simpl. rewrite Ho. by destruct ns as [|[q eq] ns'].
  - simpl. by rewrite last_snoc.
Qed.

(** A chain does not depend on the nodes outside it. *)
Lemma linked_frame h h' ns :
  linked h ns → (∀ p, p ∈ ns.*1 → h' !! p = h !! p) → linked h' ns.
Proof.
  intros Hl Hsame i p e Hi. rewrite Hsame; [by apply Hl|].
  apply list_elem_of_fmap. exists (p, e). split; [done|].
  by apply list_elem_of_lookup_2 in Hi.
Qed.

Lemma chain_frame h h' l ns :
  chain h l ns → (∀ p, p ∈ ns.*1 → h' !! p = h !! p) → chain h' l ns.
Proof. intros [Hl Hnd Ho Hn] Hsame. split; eauto using linked_frame. Qed.

Lemma chain_newest_elem h l ns p :
  chain h l ns → newest l = Some p → p ∈ ns.*1.
Proof.
  intros [_ _ _ Hn] Hp. rewrite Hn in Hp.
  destruct (last ns) as [[q e]|] eqn:Hlast; [|done].
  simpl in Hp. simplify_eq. apply last_Some_elem_of in Hlast.
  apply list_elem_of_fmap. by exists (p, e).
Qed.

Lemma chain_oldest_elem h l ns p :
  chain h l ns → oldest l = Some p → p ∈ ns.*1.
Proof.
  intros [_ _ Ho _] Hp. rewrite Ho in Hp.
  destruct ns as [|[q e] ns']; [done|]. simpl in Hp. simplify_eq.
  simpl. apply list_elem_of_here.
Qed.

End Chains.

(** ** Well-formed stores *)

Section Stores.
Implicit Types (h : list eventType) (ns : nodes) (l : eventsListType).
Implicit Types (m : gmap string eventsListType) (G : gmap string nodes).

Lemma store_inv_empty h : store_inv h ∅ ∅.
Proof.
  split.
  - intros u. by rewrite !lookup_empty.
  - intros u l ns Hm. by rewrite lookup_empty in Hm.
  - intros u1 u2 ns1 ns2 p _ H1. by rewrite lookup_empty in H1.
Qed.

Lemma store_inv_delete h m G u :
  store_inv h m G → store_inv h (delete u m) (delete u G).
Proof.
  intros [Hd Hc Hdis]. split.
  - intros u'. destruct (decide (u = u')) as [->|Hne].
    + by rewrite !lookup_delete_eq.
    + rewrite !lookup_delete_ne by done. apply Hd.
  - intros u' l ns Hm HG.
    apply lookup_delete_Some in Hm as [_ Hm].
    apply lookup_delete_Some in HG as [_ HG]. eauto.
  - intros u1 u2 ns1 ns2 p Hne H1 H2.
    apply lookup_delete_Some in H1 as [_ H1].
    apply lookup_delete_Some in H2 as [_ H2]. eauto.
Qed.

Lemma store_inv_insert h m G u l ns :
  store_inv h m G → G !! u = None → chain h l ns →
  (∀ u2 ns2 p, G !! u2 = Some ns2 → p ∈ ns.*1 → p ∈ ns2.*1 → False) →
  store_inv h (<[u := l]> m) (<[u := ns]> G).
Proof.
  intros [Hd Hc Hdis] HGu Hch Hfresh. split.
  - intros u'. destruct (decide (u = u')) as [->|Hne].
    + by rewrite !lookup_insert_eq.
    + rewrite !lookup_insert_ne by done. apply Hd.
  - intros u' l' ns' Hm HG. destruct (decide (u = u')) as [->|Hne].
    + rewrite lookup_insert_eq in Hm. rewrite lookup_insert_eq in HG.
      by simplify_eq.
    + rewrite lookup_insert_ne in Hm by done.
      rewrite lookup_insert_ne in HG by done. eauto.
  - intros u1 u2 ns1 ns2 p Hne H1 H2 Hp1 Hp2.
    destruct (decide (u = u1)) as [<-|Hne1];
      destruct (decide (u = u2)) as [<-|Hne2]; try done.
    + rewrite lookup_insert_eq in H1. rewrite lookup_insert_ne in H2 by done.
      simplify_eq. eauto.
    + rewrite lookup_insert_ne in H1 by done. rewrite lookup_insert_eq in H2.
      simplify_eq. eauto.
    + rewrite lookup_insert_ne in H1 by done.
      rewrite lookup_insert_ne in H2 by done. eauto.
Qed.

Lemma store_inv_frame h h' m G :
  store_inv h m G →
  (∀ u ns p, G !! u = Some ns → p ∈ ns.*1 → h' !! p = h !! p) →
  store_inv h' m G.
Proof.
  intros [Hd Hc Hdis] Hsame. split; [done| |done].
  intros u l ns Hm HG. eapply chain_frame; eauto.
Qed.

Lemma store_inv_lookup_lt h m G u ns p :
  store_inv h m G → G !! u = Some ns → p ∈ ns.*1 → p < length h.
Proof.
  intros Hinv HG Hp.
  destruct (m !! u) as [l|] eqn:Hm.
  - eapply linked_elem_lt; [|done]. eapply chain_linked, Hinv; eauto.
  - apply Hinv in Hm. congruence.
Qed.

(** Appending to a chain that is apart from the chains of a store keeps the
    store and the chain well formed, and keeps them apart. *)
Lemma appendEvent_store h m G l ns e h' l' :
  store_inv h m G → chain h l ns →
  (∀ u2 ns2 p, G !! u2 = Some ns2 → p ∈ ns.*1 → p ∈ ns2.*1 → False) →
  appendEvent h l e = (h', l') →
  store_inv h' m G ∧ chain h' l' (ns ++ [(length h, e)]) ∧
  (∀ u2 ns2 p, G !! u2 = Some ns2 →
     p ∈ (ns ++ [(length h, e)]).*1 → p ∈ ns2.*1 → False).
Proof.
  intros Hinv Hch Hapart Happ. split; [|split].
  - eapply store_inv_frame; [done|]. intros u ns2 p HG Hp.
    eapply appendEvent_frame; [done| |].
    + eauto using store_inv_lookup_lt.
    + intros Hn. eapply Hapart; [done| |done].
      eauto using chain_newest_elem.
  - eauto using appendEvent_chain.
  - intros u2 ns2 p HG Hp Hp2. rewrite fmap_app in Hp.
    apply elem_of_app in Hp as [Hp|Hp]; [eauto|].
    apply list_elem_of_singleton in Hp. simpl in Hp. subst p.
    pose proof (store_inv_lookup_lt _ _ _ _ _ _ Hinv HG Hp2). lia.
Qed.

End Stores.

(** ** recordEvent *)

Section RecordEvent.
Implicit Types (sr : EventRecorder) (M : EventsMap) (G : gmap string nodes).

Lemma walkOlder_nil fuel h : walkOlder fuel h None = Some [].
Proof. by destruct fuel. Qed.

Lemma walkNewer_nil fuel h : walkNewer fuel h None = Some [].
Proof. by destruct fuel. Qed.

(** The chain of a user in a well-formed store (empty for a user the store
    does not know). *)
Lemma store_inv_userList sr G u :
  store_inv (heap sr) (eventsMap sr) G →
  chain (heap sr) (userList sr u) (default [] (G !! u)).
Proof.
  intros Hinv. unfold userList.
  destruct (eventsMap sr !! u) as [l|] eqn:Hm.
  - destruct (G !! u) as [ns|] eqn:HG.
    + simpl. eapply inv_chain; eauto.
    + apply Hinv in HG. congruence.
  - apply Hinv in Hm. rewrite Hm. apply chain_nil.
Qed.

Lemma recordEvent_store_inv sr G u s ssh x509 now :
  store_inv (heap sr) (eventsMap sr) G →
  store_inv (heap (recordEvent sr u s ssh x509 now))
    (eventsMap (recordEvent sr u s ssh x509 now))
    (<[u := default [] (G !! u)
            ++ [(length (heap sr),
                 record_of (mkNotification s ssh x509 now))]]> G).
Proof.
  intros Hinv.
  pose proof (store_inv_userList sr G u Hinv) as Hch.
  unfold recordEvent. fold (userList sr u).
  destruct (appendEvent _ _ _) as [h' l'] eqn:Happ. simpl.
  assert (Hapart : ∀ u2 (ns2 : nodes) p, delete u G !! u2 = Some ns2 →
            p ∈ (default [] (G !! u)).*1 → p ∈ ns2.*1 → False).
  { intros u2 ns2 p HG Hp Hp2.
    apply lookup_delete_Some in HG as [Hne HG].
    destruct (G !! u) as [ns|] eqn:HGu.
    - simpl in Hp. eapply (inv_disjoint _ _ _ Hinv u u2); eauto.
    - simpl in Hp. by apply not_elem_of_nil in Hp. }
  destruct (appendEvent_store (heap sr) (delete u (eventsMap sr))
              (delete u G) _ _ _ _ _
              (store_inv_delete _ _ _ u Hinv) Hch Hapart Happ)
    as (Hinv' & Hch' & Hapart').
  rewrite <- (insert_delete_eq (eventsMap sr)).
  rewrite <- (insert_delete_eq G).
  apply store_inv_insert; [done|apply lookup_delete_eq|done|done].
Qed.

Lemma recordEvent_represents sr M u s ssh x509 now :
  represents sr M →
  represents (recordEvent sr u s ssh x509 now)
    (<[u := default [] (M !! u)
            ++ [record_of (mkNotification s ssh x509 now)]]> M).
Proof.
  intros (G & Hinv & ->). eexists. split.
  - by apply recordEvent_store_inv.
  - rewrite fmap_insert. f_equal. rewrite lookup_fmap.
    rewrite fmap_app. simpl. by destruct (G !! u).
Qed.

Lemma appended_cons M u (e : EventType) (es : list EventType) :
  appended (<[u := default [] (M !! u) ++ [e]]> M) u es
  = appended M u (e :: es).
Proof.
  unfold appended. destruct es as [|e' es]; [done|].
  rewrite lookup_insert_eq. simpl. rewrite insert_insert_eq.
  by rewrite <- app_assoc.
Qed.

Lemma recordEvents_represents sr M u (ns : list notification) :
  represents sr M →
  represents (recordEvents sr u ns) (appended M u (record_of <$> ns)).
Proof.
  revert sr M. induction ns as [|n ns IH]; intros sr M Hrep; [done|].
  rewrite fmap_cons, <- appended_cons.
  apply (IH (recordEvent sr u (n_lifetime n) (n_ssh n) (n_x509 n) (n_now n))).
  pose proof (recordEvent_represents _ _ u (n_lifetime n) (n_ssh n)
                (n_x509 n) (n_now n) Hrep) as Hrep'.
  by destruct n.
Qed.

(** What [represents] says in terms of the source's own traversals. *)
Lemma represents_chain sr M u :
  represents sr M →
  ∃ ns : nodes, chain (heap sr) (userList sr u) ns
                ∧ ns.*2 = default [] (M !! u).
Proof.
  intros (G & Hinv & ->). exists (default [] (G !! u)). split.
  - by apply store_inv_userList.
  - rewrite lookup_fmap. by destruct (G !! u).
Qed.

Lemma chain_history sr u (ns : nodes) :
  chain (heap sr) (userList sr u) ns →
  historyOf sr u = Some ns.*2
  ∧ historyNewestFirst sr u = Some (reverse ns.*2).
Proof.
  intros Hch.
  assert (length ns ≤ length (heap sr))
    by (destruct Hch; by apply linked_length_le).
  split.
  - by apply chain_walkNewer.
  - by apply chain_walkOlder.
Qed.

Lemma represents_history sr M u :
  represents sr M →
  historyOf sr u = Some (default [] (M !! u))
  ∧ historyNewestFirst sr u = Some (reverse (default [] (M !! u))).
Proof.
  intros Hrep. destruct (represents_chain sr M u Hrep) as (ns & Hch & <-).
  by apply chain_history.
Qed.

Lemma represents_dom sr M u :
  represents sr M → eventsMap sr !! u = None ↔ M !! u = None.
Proof.
  intros (G & Hinv & ->). rewrite lookup_fmap, fmap_None. apply Hinv.
Qed.

(** The two ends of a chain have no neighbour outside it. *)
Lemma chain_ends h l (ns : nodes) :
  chain h l ns →
  (ns = [] ∧ oldest l = None ∧ newest l = None)
  ∨ (∃ po pn no nn,
       oldest l = Some po ∧ newest l = Some pn
       ∧ h !! po = Some no ∧ older no = None
       ∧ h !! pn = Some nn ∧ newer nn = None).
Proof.
  intros [Hl Hnd Ho Hn].
  destruct ns as [|[po eo] ns'] eqn:Hns; [by left|]. right.
  rewrite <- Hns in *.
  assert (H0 : ns !! 0 = Some (po, eo)) by (by rewrite Hns).
  destruct (last ns) as [[pn en]|] eqn:Hlast;
    [|rewrite Hns in Hlast; by apply last_None in Hlast].
  pose proof Hlast as Hlast'. rewrite last_lookup in Hlast'.
  exists po, pn. eexists. eexists.
  split; [by rewrite Ho, Hns|]. split; [by rewrite Hn|].
  split; [apply (Hl _ _ _ H0)|]. split; [done|].
  split; [apply (Hl _ _ _ Hlast')|]. simpl.
  rewrite (lookup_ge_None_2 ns); [done|].
  rewrite Hns. simpl. lia.
Qed.

End RecordEvent.

(** ** Claims about recording *)

Lemma represents_empty name : represents (emptyRecorder name) ∅.
Proof.
  exists ∅. split; [apply store_inv_empty|]. by rewrite fmap_empty.
Qed.

(** C1.  The lifetime that [recordEvent] stores follows the formula of
    section 4.2: for a lifetime of [s] whole seconds (a [uint32]), the
    source's computation, with its 32-bit wrap-around, yields the value of
    the formula over the integers, and the node that [recordEvent]
    allocates and makes the user's newest carries that value. *)
Theorem recordEvent_quantizes sr username s ssh x509 now :
  is_uint32 s →
  quantizeLifetime s = quantize_spec s
  ∧ ∃ node,
      heap (recordEvent sr username s ssh x509 now) !! length (heap sr)
        = Some node
      ∧ newest (userList (recordEvent sr username s ssh x509 now) username)
        = Some (length (heap sr))
      ∧ LifetimeSeconds (ev node) = quantize_spec s.
Proof.
  intros Hs. split; [by apply quantizeLifetime_refines|].
  rewrite <- (quantizeLifetime_refines s Hs).
  unfold recordEvent, userList, appendEvent. simpl.
  rewrite lookup_insert_eq. simpl.
  destruct (newest _) as [q|].
  - destruct (decide (q = length (heap sr))) as [->|Hne].
    + rewrite list_lookup_alter_eq, lookup_app_r by lia.
      rewrite Nat.sub_diag. simpl. eauto.
    + rewrite list_lookup_alter_ne by done.
      rewrite lookup_app_r by lia. rewrite Nat.sub_diag. simpl. eauto.
  - rewrite lookup_app_r by lia. rewrite Nat.sub_diag. simpl. eauto.
Qed.

Lemma recordEvent_quantizes_witness :
  is_uint32 3599
  ∧ quantizeLifetime 3599 = quantize_spec 3599
  ∧ ∃ node,
      heap (recordEvent (emptyRecorder "events") "alice" 3599 true false 7)
        !! length (heap (emptyRecorder "events")) = Some node
      ∧ newest (userList
                  (recordEvent (emptyRecorder "events") "alice" 3599 true
                     false 7) "alice")
        = Some (length (heap (emptyRecorder "events")))
      ∧ LifetimeSeconds (ev node) = quantize_spec 3599.
Proof.
  assert (Hs : is_uint32 3599) by (unfold is_uint32; lia).
  split; [exact Hs|].
  exact (recordEvent_quantizes (emptyRecorder "events") "alice" 3599 true
           false 7 Hs).
Defined.

(** C4 as the specification states it fails: 61 seconds are not recorded as
    120, and 3550 seconds are not recorded as 3600. *)
Lemma quantization_examples_as_stated_fail :
  ¬ (recordedLifetime 59 = Some 59%Z
     ∧ recordedLifetime 60 = Some 60%Z
     ∧ recordedLifetime 61 = Some 120%Z
     ∧ recordedLifetime 3600 = Some 3600%Z
     ∧ recordedLifetime 3601 = Some 3601%Z
     ∧ recordedLifetime 3550 = Some 3600%Z).
Proof. intros (_ & _ & H61 & _). vm_compute in H61. discriminate. Qed.

(** C4, amended.  59 seconds are recorded as 59, 60 as 60, 61 as 61, 3600 as
    3600, 3601 as 3601 and 3550 as 3550: a value is rounded up only when it
    is within the margin below the next unit, as 119 (to 120), 3599 (to
    3600) and 7150 (to 7200) are. *)
Theorem quantization_examples :
  recordedLifetime 59 = Some 59%Z
  ∧ recordedLifetime 60 = Some 60%Z
  ∧ recordedLifetime 61 = Some 61%Z
  ∧ recordedLifetime 3600 = Some 3600%Z
  ∧ recordedLifetime 3601 = Some 3601%Z
  ∧ recordedLifetime 3550 = Some 3550%Z
  ∧ recordedLifetime 119 = Some 120%Z
  ∧ recordedLifetime 3599 = Some 3600%Z
  ∧ recordedLifetime 7150 = Some 7200%Z.
Proof. repeat split; vm_compute; reflexivity. Qed.

(** C7.  A sequence of [N] appends for one user whose history was empty
    leaves a chain of exactly [N] nodes that holds the appended records in
    insertion order: the chain is linked and has no repeated node,
    [oldest] and [newest] are its two ends, the oldest node has no older
    neighbour and the newest no newer one, and the walk of
    [getEventsList] from [newest] along [older] ends and yields the [N]
    records in reverse insertion order. *)
Theorem recordEvents_builds_chain sr M username (ns : list notification) :
  represents sr M → default [] (M !! username) = [] →
  ∃ cs : nodes,
    chain (heap (recordEvents sr username ns))
      (userList (recordEvents sr username ns) username) cs
    ∧ length cs = length ns
    ∧ cs.*2 = record_of <$> ns
    ∧ ((ns = []
        ∧ oldest (userList (recordEvents sr username ns) username) = None
        ∧ newest (userList (recordEvents sr username ns) username) = None)
       ∨ (∃ po pn no nn,
            oldest (userList (recordEvents sr username ns) username)
              = Some po
            ∧ newest (userList (recordEvents sr username ns) username)
              = Some pn
            ∧ heap (recordEvents sr username ns) !! po = Some no
            ∧ older no = None
            ∧ heap (recordEvents sr username ns) !! pn = Some nn
            ∧ newer nn = None))
    ∧ historyNewestFirst (recordEvents sr username ns) username
      = Some (reverse (record_of <$> ns))
    ∧ historyOf (recordEvents sr username ns) username
      = Some (record_of <$> ns).
Proof.
  intros Hrep Hempty.
  pose proof (recordEvents_represents sr M username ns Hrep) as Hrep'.
  destruct (represents_chain _ _ username Hrep') as (cs & Hch & Hcs).
  assert (Hes : cs.*2 = record_of <$> ns).
  { rewrite Hcs. unfold appended.
    destruct (record_of <$> ns) as [|e es] eqn:Hns; [done|].
    rewrite lookup_insert_eq. simpl. by rewrite Hempty. }
  assert (Hlen : length cs = length ns).
  { rewrite <- (length_fmap snd cs), Hes. by rewrite length_fmap. }
  exists cs. split; [done|]. split; [done|]. split; [done|].
  split.
  - destruct (chain_ends _ _ _ Hch) as [(-> & Ho & Hn) | Hends].
    + left. split; [|done]. destruct ns; [done|]. simpl in Hlen. lia.
    + by right.
  - rewrite <- Hes. split; by apply chain_history.
Qed.

Lemma recordEvents_builds_chain_witness :
  ∃ cs : nodes,
    chain
      (heap (recordEvents (emptyRecorder "events") "alice"
               [mkNotification 3599 true false 100;
                mkNotification 30 false true 200]))
      (userList
         (recordEvents (emptyRecorder "events") "alice"
            [mkNotification 3599 true false 100;
             mkNotification 30 false true 200]) "alice") cs
    ∧ length cs = 2.
Proof.
  destruct (recordEvents_builds_chain (emptyRecorder "events") ∅ "alice"
              [mkNotification 3599 true false 100;
               mkNotification 30 false true 200]
              (represents_empty "events") eq_refl)
    as (cs & Hch & Hlen & _).
  exists cs. split; [exact Hch | exact Hlen].
Defined.

(** ** expireOldEvents *)

Section Expire.
Implicit Types (h : list eventType) (ns : nodes) (l : eventsListType).
Implicit Types (m : gmap string eventsListType) (G : gmap string nodes).
Variable minCT : Z.

Lemma drop_expired_elem ns p :
  p ∈ (drop_expired minCT ns).*1 → p ∈ ns.*1.
Proof.
  induction ns as [|[q e] ns IH]; [done|]. simpl.
  destruct (minCT <=? CreateTime e)%Z; [done|].
  intros Hp. apply list_elem_of_further. by apply IH.
Qed.

(** Unlinking the oldest node of a chain of two nodes or more. *)
Lemma chain_tail h l p e q e' ns :
  chain h l ((p, e) :: (q, e') :: ns) →
  chain (alter (set_older None) q h)
    {| newest := newest l; oldest := Some q |} ((q, e') :: ns).
Proof.
  intros [Hl Hnd Ho Hn]. split.
  - intros i pi ei Hi.
    pose proof (Hl (S i) pi ei Hi) as Hnode. simpl in Hnode.
    destruct i as [|j].
    + simpl in Hi. simplify_eq.
      rewrite list_lookup_alter_eq, Hnode. done.
    + assert (pi ≠ q).
      { intros ->. simpl in Hnd. apply NoDup_cons in Hnd as [_ Hnd].
        assert (H0 : ((q, e') :: ns).*1 !! 0 = Some q) by done.
        assert (HS : ((q, e') :: ns).*1 !! S j = Some q)
          by (by rewrite list_lookup_fmap, Hi).
        pose proof (NoDup_lookup _ _ _ _ Hnd H0 HS). lia. }
      rewrite list_lookup_alter_ne by done. by rewrite Hnode.
  - simpl in *. by apply NoDup_cons in Hnd as [_ Hnd].
  - done.
  - simpl. rewrite Hn. done.
Qed.

Lemma expireList_chain ns : ∀ h l fuel changed,
  chain h l ns → length ns ≤ fuel →
  ∃ h' l',
    expireList fuel minCT h l (oldest l) changed
      = Some (h', l', changed || has_expired minCT ns)
    ∧ chain h' l' (drop_expired minCT ns)
    ∧ length h' = length h
    ∧ (∀ p, p ∉ ns.*1 → h' !! p = h !! p).
Proof.
  induction ns as [|[p e] ns IH]; intros h l fuel changed Hch Hfuel.
  - exists h, l. destruct Hch as [Hl Hnd Ho Hn]. rewrite Ho. simpl.
    rewrite orb_false_r. split; [by destruct fuel|].
    split; [by split|]. done.
  - pose proof Hch as [Hl Hnd Ho Hn]. rewrite Ho. simpl.
    destruct fuel as [|fuel]; [simpl in Hfuel; lia|]. simpl.
    rewrite (Hl 0 p e eq_refl). simpl.
    destruct (minCT <=? CreateTime e)%Z eqn:Hcmp.
    + exists h, l. rewrite orb_false_r. done.
    + simpl. rewrite orb_true_r.
      destruct ns as [|[q e'] ns'].
      * simpl. eexists _, _. split; [by destruct fuel|].
        split; [apply chain_nil|]. done.
      * simpl.
        pose proof (chain_tail _ _ _ _ _ _ _ Hch) as Hch'.
        destruct (IH _ _ fuel true Hch') as (h' & l' & Hrun & Hres & Hlen & Hfr).
        { simpl in *. lia. }
        simpl in Hrun. exists h', l'. split; [done|]. split; [done|].
        split; [by rewrite Hlen, length_alter|].
        intros p0 Hp0. rewrite Hfr.
        -- apply list_lookup_alter_ne. intros ->. apply Hp0. simpl.
           apply list_elem_of_further, list_elem_of_here.
        -- intros Hin. apply Hp0. simpl. by apply list_elem_of_further.
Qed.

(** A chain whose oldest node is not before the cutoff is left alone. *)
Lemma expireList_noop h l ns fuel changed :
  chain h l ns → has_expired minCT ns = false → 0 < fuel ∨ ns = [] →
  expireList fuel minCT h l (oldest l) changed = Some (h, l, changed).
Proof.
  intros [Hl Hnd Ho Hn] Hno Hfuel. rewrite Ho.
  destruct ns as [|[p e] ns']; [by destruct fuel|].
  destruct fuel as [|fuel]; [destruct Hfuel; [lia|done]|].
  simpl. rewrite (Hl 0 p e eq_refl). simpl.
  simpl in Hno. apply negb_false_iff in Hno. by rewrite Hno.
Qed.

Lemma alter_lookup_Some G u ns (f : nodes → nodes) :
  G !! u = Some ns → alter f u G = <[u := f ns]> G.
Proof.
  intros HG. apply map_eq. intros v. destruct (decide (u = v)) as [<-|Hne].
  - by rewrite lookup_alter_eq, lookup_insert_eq, HG.
  - by rewrite lookup_alter_ne, lookup_insert_ne.
Qed.

Lemma alter_lookup_None G u (f : nodes → nodes) :
  G !! u = None → alter f u G = G.
Proof.
  intros HG. apply map_eq. intros v. destruct (decide (u = v)) as [<-|Hne].
  - by rewrite lookup_alter_eq, HG.
  - by rewrite lookup_alter_ne.
Qed.

Lemma any_expired_alter order G u (f : nodes → nodes) :
  u ∉ order → any_expired order minCT (alter f u G) = any_expired order minCT G.
Proof.
  intros Hu. unfold any_expired. induction order as [|v order IH]; [done|].
  simpl. apply not_elem_of_cons in Hu as [Hne Hu].
  rewrite lookup_alter_ne by done. by rewrite IH.
Qed.

(** One user's pass in a well-formed store. *)
Lemma expireList_store h m G u l ns changed :
  store_inv h m G → m !! u = Some l → G !! u = Some ns →
  ∃ h' l',
    expireList (length h) minCT h l (oldest l) changed
      = Some (h', l', changed || has_expired minCT ns)
    ∧ store_inv h' (<[u := l']> m) (alter (drop_expired minCT) u G)
    ∧ length h' = length h.
Proof.
  intros Hinv Hm HG.
  pose proof (inv_chain _ _ _ Hinv u l ns Hm HG) as Hch.
  assert (Hlen : length ns ≤ length h)
    by (destruct Hch; by apply linked_length_le).
  destruct (expireList_chain ns h l (length h) changed Hch Hlen)
    as (h' & l' & Hrun & Hch' & Hlen' & Hfr).
  exists h', l'. split; [done|]. split; [|done].
  rewrite (alter_lookup_Some _ _ ns) by done.
  rewrite <- (insert_delete_eq m), <- (insert_delete_eq G).
  apply store_inv_insert; [|apply lookup_delete_eq|done|].
  - eapply store_inv_frame; [by apply store_inv_delete|].
    intros u2 ns2 p HG2 Hp. apply Hfr. intros Hp'.
    apply lookup_delete_Some in HG2 as [Hne HG2].
    eapply (inv_disjoint _ _ _ Hinv u u2); eauto.
  - intros u2 ns2 p HG2 Hp Hp2.
    apply lookup_delete_Some in HG2 as [Hne HG2].
    apply drop_expired_elem in Hp.
    eapply (inv_disjoint _ _ _ Hinv u u2); eauto.
Qed.

Lemma expireUsers_store order : ∀ h m G changed,
  NoDup order → store_inv h m G →
  ∃ h' m',
    expireUsers order minCT h m changed
      = Some (h', m', changed || any_expired order minCT G)
    ∧ store_inv h' m' (expire_in order minCT G)
    ∧ length h' = length h.
Proof.
  induction order as [|u order IH]; intros h m G changed Hnd Hinv.
  - exists h, m. simpl. by rewrite orb_false_r.
  - apply NoDup_cons in Hnd as [Hu Hnd]. simpl.
    destruct (m !! u) as [l|] eqn:Hm.
    + destruct (G !! u) as [ns|] eqn:HG;
        [|apply Hinv in HG; congruence].
      destruct (expireList_store h m G u l ns changed Hinv Hm HG)
        as (h1 & l1 & Hrun & Hinv1 & Hlen1).
      rewrite Hrun.
      destruct (IH h1 (<[u := l1]> m) (alter (drop_expired minCT) u G)
                  (changed || has_expired minCT ns) Hnd Hinv1)
        as (h' & m' & Hrun' & Hinv' & Hlen').
      exists h', m'. rewrite Hrun'. split; [|split; [done|lia]].
      by rewrite any_expired_alter, orb_assoc by done.
    + pose proof Hm as HG. apply Hinv in HG. rewrite HG.
      rewrite alter_lookup_None by done. simpl.
      destruct (IH h m G changed Hnd Hinv) as (h' & m' & Hrun' & Hinv' & Hlen').
      exists h', m'. by rewrite Hrun'.
Qed.

(** A pass over a store in which no chain starts before the cutoff changes
    nothing. *)
Lemma expireUsers_noop order : ∀ h m G changed,
  store_inv h m G → any_expired order minCT G = false →
  expireUsers order minCT h m changed = Some (h, m, changed).
Proof.
  induction order as [|u order IH]; intros h m G changed Hinv Hno; [done|].
  simpl in *. apply orb_false_iff in Hno as [Hu Hno].
  destruct (m !! u) as [l|] eqn:Hm; [|eauto].
  destruct (G !! u) as [ns|] eqn:HG; [|apply Hinv in HG; congruence].
  pose proof (inv_chain _ _ _ Hinv u l ns Hm HG) as Hch.
  rewrite (expireList_noop h l ns (length h) changed Hch Hu).
  - rewrite insert_id by done. eauto.
  - destruct ns as [|[p e] ns']; [by right|left].
    pose proof (linked_lookup_lt h _ 0 p e (chain_linked _ _ _ Hch) eq_refl).
    lia.
Qed.

Lemma expire_in_lookup order : ∀ G u,
  NoDup order →
  expire_in order minCT G !! u
  = if decide (u ∈ order) then drop_expired minCT <$> G !! u else G !! u.
Proof.
  induction order as [|v order IH]; intros G u Hnd; [done|].
  apply NoDup_cons in Hnd as [Hv Hnd]. simpl. rewrite IH by done.
  destruct (decide (u = v)) as [->|Hne].
  - rewrite decide_False by done. rewrite decide_True by apply list_elem_of_here.
    by rewrite lookup_alter_eq.
  - rewrite lookup_alter_ne by done.
    destruct (decide (u ∈ order)) as [Hin|Hnin].
    + by rewrite decide_True by (by apply list_elem_of_further).
    + rewrite decide_False; [done|].
      intros Hin. apply elem_of_cons in Hin as [?|?]; done.
Qed.

Lemma has_expired_drop ns : has_expired minCT (drop_expired minCT ns) = false.
Proof.
  induction ns as [|[p e] ns IH]; [done|]. simpl.
  destruct (minCT <=? CreateTime e)%Z eqn:Hcmp; [|done].
  simpl. by rewrite Hcmp.
Qed.

Lemma unexpired_all (l : list EventType) :
  (∀ e, e ∈ l → (minCT <= CreateTime e)%Z) → unexpired minCT l = l.
Proof.
  intros Hall. unfold unexpired. induction l as [|e l IH]; [done|].
  rewrite filter_cons_True by (apply Hall, list_elem_of_here).
  f_equal. apply IH. intros e' He'. by apply Hall, list_elem_of_further.
Qed.

(** On a history in time order the loop removes exactly the records before
    the cutoff. *)
Lemma drop_expired_sorted ns :
  time_sorted ns.*2 → (drop_expired minCT ns).*2 = unexpired minCT ns.*2.
Proof.
  induction ns as [|[p e] ns IH]; [done|].
  rewrite fmap_cons. cbn [snd time_sorted drop_expired]. intros [Hle Hs].
  destruct (minCT <=? CreateTime e)%Z eqn:Hcmp.
  - apply Z.leb_le in Hcmp. rewrite fmap_cons. cbn [snd]. symmetry.
    apply (unexpired_all (e :: ns.*2)). intros e' He'.
    apply elem_of_cons in He' as [->|He']; [done|].
    specialize (Hle e' He'). lia.
  - apply Z.leb_gt in Hcmp. unfold unexpired.
    rewrite filter_cons_False by lia. by apply IH.
Qed.

Lemma unexpired_prefix (l : list EventType) :
  time_sorted l →
  ∃ k, unexpired minCT l = drop k l
       ∧ ∀ e, e ∈ take k l → (CreateTime e < minCT)%Z.
Proof.
  induction l as [|e l IH]; intros Hs.
  - exists 0. split; [done|]. intros e He. by apply not_elem_of_nil in He.
  - destruct Hs as [Hle Hs].
    destruct (Z_le_dec minCT (CreateTime e)) as [Hc|Hc].
    + exists 0. split.
      * rewrite drop_0. apply unexpired_all. intros e' He'.
        apply elem_of_cons in He' as [->|He']; [done|].
        specialize (Hle e' He'). lia.
      * intros e' He'. by apply not_elem_of_nil in He'.
    + destruct (IH Hs) as (k & Hk & Hbefore). exists (S k). split.
      * unfold unexpired. by rewrite filter_cons_False by lia.
      * simpl. intros e' He'.
        apply elem_of_cons in He' as [->|He']; [lia|by apply Hbefore].
Qed.

Lemma has_expired_sorted ns :
  time_sorted ns.*2 →
  has_expired minCT ns = true
  ↔ ∃ e, e ∈ ns.*2 ∧ (CreateTime e < minCT)%Z.
Proof.
  intros Hs. destruct ns as [|[p e] ns].
  - split; [done|]. intros (e & He & _). by apply not_elem_of_nil in He.
  - rewrite fmap_cons in Hs |- *. cbn [snd time_sorted has_expired] in Hs |- *.
    destruct Hs as [Hle _]. rewrite negb_true_iff, Z.leb_gt. split.
    + intros Hlt. exists e. split; [apply list_elem_of_here|done].
    + intros (e' & He' & Hlt).
      apply elem_of_cons in He' as [->|He']; [done|].
      specialize (Hle e' He'). lia.
Qed.

Lemma any_expired_true order G :
  any_expired order minCT G = true
  ↔ ∃ u ns, u ∈ order ∧ G !! u = Some ns ∧ has_expired minCT ns = true.
Proof.
  unfold any_expired. rewrite existsb_exists. split.
  - intros (u & Hu & Hexp). apply list_elem_of_In in Hu.
    destruct (G !! u) as [ns|] eqn:HG; [|done]. eauto.
  - intros (u & ns & Hu & HG & Hexp). exists u.
    split; [by apply list_elem_of_In|]. by rewrite HG.
Qed.

End Expire.

Lemma range_order_NoDup {V} (m : gmap string V) order :
  range_order m order → NoDup order.
Proof.
  unfold range_order. intros ->. apply NoDup_fst_map_to_list.
Qed.

Lemma range_order_elem {V} (m : gmap string V) order u :
  range_order m order → u ∈ order ↔ is_Some (m !! u).
Proof.
  unfold range_order. intros ->. rewrite list_elem_of_fmap. split.
  - intros ([u' v] & -> & Hin). apply elem_of_map_to_list in Hin. by exists v.
  - intros [v Hv]. exists (u, v). split; [done|].
    by apply elem_of_map_to_list.
Qed.

(** The state after a pass over every user, in any order of the range. *)
Lemma expireOldEvents_store sr G order now :
  store_inv (heap sr) (eventsMap sr) G → range_order (eventsMap sr) order →
  ∃ sr',
    expireOldEvents order now sr
      = Some (any_expired order (minCreateTime now) G, sr')
    ∧ store_inv (heap sr') (eventsMap sr')
        (drop_expired (minCreateTime now) <$> G)
    ∧ filename sr' = filename sr.
Proof.
  intros Hinv Horder.
  pose proof (range_order_NoDup _ _ Horder) as Hnd.
  destruct (expireUsers_store (minCreateTime now) order (heap sr)
              (eventsMap sr) G false Hnd Hinv)
    as (h' & m' & Hrun & Hinv' & _).
  unfold expireOldEvents. rewrite Hrun. simpl. eexists. split; [done|].
  split; [|done]. simpl.
  replace (drop_expired (minCreateTime now) <$> G)
    with (expire_in order (minCreateTime now) G); [done|].
  apply map_eq. intros u. rewrite expire_in_lookup, lookup_fmap by done.
  destruct (decide (u ∈ order)) as [Hin|Hnin]; [done|].
  destruct (G !! u) as [ns|] eqn:HG; [|done].
  exfalso. apply Hnin. apply (range_order_elem _ _ _ Horder).
  destruct (eventsMap sr !! u) eqn:Hm; [done|].
  apply Hinv in Hm. congruence.
Qed.

(** C3.  In a store whose histories are in non-decreasing [CreateTime]
    order, a pass of [expireOldEvents] with the cutoff [C] ends, in any
    order of the range, and leaves for every user exactly the records with
    [CreateTime >= C], in unchanged order; what it removes is a prefix from
    the oldest end, of records before [C]; a user left without records has
    both [oldest] and [newest] nil; the result is [true] exactly when some
    record was before [C]; and a second pass with the same cutoff returns
    [false] and leaves the store as it is. *)
Theorem expireOldEvents_removes_expired sr M order now :
  represents sr M →
  (∀ u l, M !! u = Some l → time_sorted l) →
  range_order (eventsMap sr) order →
  ∃ changed sr',
    expireOldEvents order now sr = Some (changed, sr')
    ∧ represents sr' (unexpired (minCreateTime now) <$> M)
    ∧ (∀ u, historyOf sr' u
            = Some (unexpired (minCreateTime now) (default [] (M !! u))))
    ∧ (∀ u l, M !! u = Some l →
         ∃ k, unexpired (minCreateTime now) l = drop k l
              ∧ ∀ e, e ∈ take k l → (CreateTime e < minCreateTime now)%Z)
    ∧ (∀ u, unexpired (minCreateTime now) (default [] (M !! u)) = [] →
         oldest (userList sr' u) = None ∧ newest (userList sr' u) = None)
    ∧ (changed = true
       ↔ ∃ u l e, M !! u = Some l ∧ e ∈ l
                  ∧ (CreateTime e < minCreateTime now)%Z)
    ∧ (∀ order', expireOldEvents order' now sr' = Some (false, sr')).
Proof.
  intros (G & Hinv & ->) Hsorted Horder.
  destruct (expireOldEvents_store sr G order now Hinv Horder)
    as (sr' & Hrun & Hinv' & Hname).
  assert (Hsorted' : ∀ u ns, G !! u = Some ns → time_sorted ns.*2).
  { intros u ns HG. apply (Hsorted u). by rewrite lookup_fmap, HG. }
  assert (Hrep' : represents sr'
            (unexpired (minCreateTime now) <$> ((λ ns : nodes, ns.*2) <$> G))).
  { eexists. split; [exact Hinv'|].
    apply map_eq. intros u. rewrite !lookup_fmap.
    destruct (G !! u) as [ns|] eqn:HG; [|done]. simpl.
    by rewrite drop_expired_sorted by eauto. }
  exists (any_expired order (minCreateTime now) G), sr'.
  split; [done|]. split; [done|]. split; [|split; [|split; [|split]]].
  - intros u. destruct (represents_history _ _ u Hrep') as [Hh _].
    rewrite Hh. f_equal. rewrite !lookup_fmap.
    by destruct (G !! u).
  - intros u l Hl. apply unexpired_prefix. eauto.
  - intros u Hnone.
    destruct (represents_chain _ _ u Hrep') as (cs & Hch & Hcs).
    assert (cs = []) as ->.
    { apply (fmap_nil_inv snd). rewrite Hcs, !lookup_fmap.
      rewrite lookup_fmap in Hnone. by destruct (G !! u). }
    destruct Hch as [_ _ Ho Hn]. by rewrite Ho, Hn.
  - rewrite any_expired_true. split.
    + intros (u & ns & Hu & HG & Hexp).
      apply has_expired_sorted in Hexp as (e & He & Hlt); [|eauto].
      exists u, ns.*2, e. by rewrite lookup_fmap, HG.
    + intros (u & l & e & Hl & He & Hlt).
      rewrite lookup_fmap in Hl.
      destruct (G !! u) as [ns|] eqn:HG; [|done]. simpl in Hl. simplify_eq.
      exists u, ns. split; [|split; [done|]].
      * apply (range_order_elem _ _ _ Horder).
        destruct (eventsMap sr !! u) eqn:Hm; [done|].
        apply Hinv in Hm. congruence.
      * apply has_expired_sorted; eauto.
  - intros order'. unfold expireOldEvents.
    rewrite (expireUsers_noop (minCreateTime now) order' _ _ _ false Hinv').
    + by destruct sr'.
    + apply not_true_is_false. rewrite any_expired_true.
      intros (u & ns & _ & HG & Hexp). rewrite lookup_fmap in HG.
      destruct (G !! u) as [ns0|]; [|done]. simpl in HG. simplify_eq.
      by rewrite has_expired_drop in Hexp.
Qed.

Lemma exampleRecorder_represents : represents exampleRecorder exampleHistories.
Proof. apply recordEvents_represents, represents_empty. Qed.

Lemma exampleHistories_sorted u l :
  exampleHistories !! u = Some l → time_sorted l.
Proof.
  unfold exampleHistories, appended. simpl.
  intros Hl. apply lookup_insert_Some in Hl as [[_ <-]|[_ Hl]];
    [|by rewrite lookup_empty in Hl].
  simpl. split; [|split; [|done]].
  - intros e' He'. apply list_elem_of_singleton in He' as ->. by vm_compute.
  - intros e' He'. by apply not_elem_of_nil in He'.
Qed.

Lemma exampleRecorder_order : range_order (eventsMap exampleRecorder) ["alice"].
Proof. unfold range_order. by vm_compute. Qed.

Lemma expireOldEvents_removes_expired_witness :
  ∃ changed sr',
    expireOldEvents ["alice"] 7678430 exampleRecorder = Some (changed, sr')
    ∧ historyOf sr' "alice"
      = Some (unexpired (minCreateTime 7678430)
                (default [] (exampleHistories !! "alice")))
    ∧ (changed = true
       ↔ ∃ u l e, exampleHistories !! u = Some l ∧ e ∈ l
                  ∧ (CreateTime e < minCreateTime 7678430)%Z).
Proof.
  destruct (expireOldEvents_removes_expired exampleRecorder exampleHistories
              ["alice"] 7678430 exampleRecorder_represents
              exampleHistories_sorted exampleRecorder_order)
    as (changed & sr' & Hrun & _ & Hhist & _ & _ & Hchanged & _).
  exists changed, sr'. split; [exact Hrun|]. split; [exact (Hhist "alice")|].
  exact Hchanged.
Defined.

(** ** The durable log and construction *)

(** C5.  Construction tells the two load failures apart.  Without a history
    file [loadEvents] returns an empty map with an error that
    [os.IsNotExist] recognises, and [newEventRecorder] returns a recorder
    with an empty store and no error.  With a file that opens but does not
    decode, [loadEvents] returns an error that [os.IsNotExist] rejects, and
    [newEventRecorder] returns no recorder and that error.  A file that
    cannot be opened for another reason fails construction as well. *)
Theorem newEventRecorder_load_failures fs name order now :
  (files fs !! name = None →
     loadEvents fs name order now = (Some ([], ∅), Some ErrNotExist)
     ∧ IsNotExist ErrNotExist = true
     ∧ newEventRecorder fs name order now = (Some (emptyRecorder name), None))
  ∧ (∀ f, files fs !! name = Some f → Z.testbit (mode f) 8 = true →
       data f = Garbage →
       ∃ e, loadEvents fs name order now = (None, Some e)
            ∧ IsNotExist e = false
            ∧ newEventRecorder fs name order now = (None, Some e))
  ∧ (∀ f, files fs !! name = Some f → Z.testbit (mode f) 8 = false →
       newEventRecorder fs name order now = (None, Some ErrPermission)).
Proof.
  split; [|split].
  - intros Habsent. unfold newEventRecorder, loadEvents, os_Open.
    by rewrite Habsent.
  - intros f Hf Hread Hdata. exists ErrDecode.
    unfold newEventRecorder, loadEvents, os_Open, gob_Decode.
    by rewrite Hf, Hread, Hdata.
  - intros f Hf Hread. unfold newEventRecorder, loadEvents, os_Open.
    by rewrite Hf, Hread.
Qed.

Lemma newEventRecorder_load_failures_witness :
  newEventRecorder emptyFS "events" [] 7678430
    = (Some (emptyRecorder "events"), None)
  ∧ ∃ e, newEventRecorder (garbageFS "events") "events" [] 7678430
         = (None, Some e) ∧ IsNotExist e = false.
Proof.
  split.
  - destruct (newEventRecorder_load_failures emptyFS "events" [] 7678430)
      as (Habsent & _ & _).
    destruct (Habsent eq_refl) as (_ & _ & Hnew). exact Hnew.
  - destruct (newEventRecorder_load_failures (garbageFS "events") "events"
                [] 7678430) as (_ & Hgarbage & _).
    destruct (Hgarbage {| mode := filePerms; data := Garbage |}
                eq_refl eq_refl eq_refl) as (e & _ & Hnot & Hnew).
    exists e. split; [exact Hnew | exact Hnot].
Defined.

(** C8 as the specification states it fails: the file that [saveEvents]
    writes is readable by others. *)
Lemma saved_file_not_owner_group_only :
  ¬ (∀ fs name eventsMap fs' f,
       saveEvents fs name eventsMap = (fs', None) →
       files fs' !! name = Some f →
       Z.land (mode f) othersBits = 0%Z).
Proof.
  intros Hclaim.
  specialize (Hclaim emptyFS "events" ∅
                {| files := {[ "events" := {| mode := filePerms;
                                              data := Gob ∅ |} ]};
                   readOnly := false |}
                {| mode := filePerms; data := Gob ∅ |} eq_refl eq_refl).
  vm_compute in Hclaim. discriminate.
Qed.

(** C8, amended.  A successful [saveEvents] leaves at the destination a
    file with mode 0644: owner read and write, group read, others read, and
    no other bit (no write access for group or others, no execute bit);
    its content is the encoded map. *)
Theorem saveEvents_file_mode fs name eventsMap fs' :
  saveEvents fs name eventsMap = (fs', None) →
  ∃ f, files fs' !! name = Some f
       ∧ data f = Gob eventsMap
       ∧ mode f = 420%Z
       ∧ mode f = Z.lor (Z.lor (Z.lor S_IRUSR S_IWUSR) S_IRGRP) S_IROTH
       ∧ Z.land (mode f) S_IROTH = S_IROTH
       ∧ Z.land (mode f)
           (Z.lor (Z.lor (Z.lor (Z.lor S_IXUSR S_IWGRP) S_IXGRP) S_IWOTH)
              S_IXOTH) = 0%Z.
Proof.
  unfold saveEvents, renamingWrite. destruct (readOnly fs); [done|].
  intros [= <-]. simpl. rewrite lookup_insert_eq. eexists. split; [done|].
  by vm_compute.
Qed.

Lemma saveEvents_file_mode_witness :
  ∃ f, files (saveEvents emptyFS "events" ∅).1 !! "events" = Some f
       ∧ mode f = 420%Z.
Proof.
  destruct (saveEvents_file_mode emptyFS "events" ∅
              (saveEvents emptyFS "events" ∅).1 eq_refl)
    as (f & Hf & _ & Hmode & _).
  exists f. split; [exact Hf | exact Hmode].
Defined.

(** ** The actor loop *)

(** C9.  An SSH notification with an empty principal list makes the
    iteration panic, in every state: [cert.ValidPrincipals[0]] is
    evaluated without a check of the length.  With one principal or more
    the iteration does not panic. *)
Theorem eventLoop_step_empty_principals r st validBefore :
  eventLoop_step r st (SshCert (mkSshCert [] validBefore)) = Panic
  ∧ ∀ p ps, eventLoop_step r st (SshCert (mkSshCert (p :: ps) validBefore))
            ≠ Panic.
Proof. split; [done|]. intros p ps. simpl. discriminate. Qed.

(** The snapshot of a well-formed store lists every history newest
    first. *)
Lemma buildEventsMap_represents (sr : EventRecorder) (M : EventsMap) :
  represents sr M → buildEventsMap sr = Some (reverse <$> M).
Proof.
  intros (G & Hinv & ->). unfold buildEventsMap.
  assert (Hwalk : ∀ u l, eventsMap sr !! u = Some l →
            ∃ ns, G !! u = Some ns
                  ∧ walkOlder (length (heap sr)) (heap sr) (newest l)
                    = Some (reverse ns.*2)).
  { intros u l Hm. destruct (G !! u) as [ns|] eqn:HG;
      [|apply Hinv in HG; congruence].
    exists ns. split; [done|].
    pose proof (inv_chain _ _ _ Hinv u l ns Hm HG) as Hch.
    apply chain_walkOlder; [done|].
    destruct Hch. by apply linked_length_le. }
  rewrite decide_True.
  - f_equal. apply map_eq. intros u.
    rewrite lookup_omap, !lookup_fmap.
    destruct (eventsMap sr !! u) as [l|] eqn:Hm.
    + destruct (Hwalk u l Hm) as (ns & -> & Hw). simpl. by rewrite Hw.
    + apply Hinv in Hm. by rewrite Hm.
  - intros u o Ho. rewrite lookup_fmap in Ho.
    destruct (eventsMap sr !! u) as [l|] eqn:Hm; [|done].
    destruct (Hwalk u l Hm) as (ns & _ & Hw). simpl in Ho.
    rewrite Hw in Ho. by simplify_eq.
Qed.

Section SnapshotCache.
Implicit Types (st : loopState) (r : readings) (c : cache).

Lemma getEventsList_cached sr c computeTime p :
  lastEvents c = Some p → getEventsList sr c computeTime = Some (c, p).
Proof. unfold getEventsList. by intros ->. Qed.

Lemma getEventsList_result sr c computeTime c' p :
  getEventsList sr c computeTime = Some (c', p) →
  lastEvents c' = Some p
  ∧ length (snapshots c') + pending c' = length (snapshots c) + pending c
  ∧ (lastEvents c = Some p → c' = c).
Proof.
  unfold getEventsList, pending.
  destruct (lastEvents c) as [q|] eqn:Hq.
  - intros [= <- <-]. rewrite Hq. by split.
  - destruct (buildEventsMap sr) as [m|]; [|done].
    intros [= <- <-]. simpl. rewrite length_app. simpl.
    split; [done|]. split; [lia|done].
Qed.

(** One iteration builds at most what the cache owed, plus one when the
    iteration is a mutation. *)
Lemma eventLoop_step_builds r st msg st' reply :
  eventLoop_step r st msg = Next st' reply →
  builds st' + pending (snapCache st')
  ≤ builds st + pending (snapCache st)
    + (if is_mutation r st msg then 1 else 0).
Proof.
  unfold builds. destruct msg as [cert|cert| |ready|]; simpl.
  - destruct (ValidPrincipals cert !! 0); [|done].
    intros [= <- _]. unfold pending. simpl. destruct (lastEvents _); lia.
  - intros [= <- _]. unfold pending. simpl. destruct (lastEvents _); lia.
  - destruct (expireOldEvents _ _ _) as [[[] sr']|]; [| |done].
    + intros [= <- _]. unfold pending. simpl. destruct (lastEvents _); lia.
    + intros [= <- _]. simpl. lia.
  - destruct (getEventsList _ _ _) as [[c p]|] eqn:Hget; [|done].
    destruct (snapshots c !! p); [|done]. intros [= <- _]. simpl.
    apply getEventsList_result in Hget as (_ & Hcount & _). lia.
  - destruct (getEventsList _ _ _) as [[c p]|] eqn:Hget; [|done].
    destruct (snapshots c !! p); [|done].
    destruct (saveEvents _ _ _) as [fs' err]. intros [= <- _]. simpl.
    apply getEventsList_result in Hget as (_ & Hcount & _). lia.
Qed.

Lemma eventLoop_run_builds trace : ∀ st st' k,
  eventLoop_run trace st = Some (st', k) →
  builds st' + pending (snapCache st')
  ≤ builds st + pending (snapCache st) + k.
Proof.
  induction trace as [|[r msg] trace IH]; intros st st' k; simpl.
  - intros [= <- <-]. lia.
  - destruct (eventLoop_step r st msg) as [| |st1 reply] eqn:Hstep;
      [done|done|].
    destruct (eventLoop_run trace st1) as [[st2 k2]|] eqn:Hrun; [|done].
    intros [= <- <-].
    apply eventLoop_step_builds in Hstep. apply IH in Hrun.
    destruct (is_mutation r st msg); lia.
Qed.

(** An iteration that is not a mutation keeps a cached snapshot. *)
Lemma eventLoop_step_keeps_cache r st msg st' reply :
  eventLoop_step r st msg = Next st' reply →
  is_mutation r st msg = false →
  is_Some (lastEvents (snapCache st)) →
  snapCache st' = snapCache st.
Proof.
  intros Hstep Hmut [p Hp]. destruct msg as [cert|cert| |ready|];
    simpl in *; try done.
  - destruct (expireOldEvents _ _ _) as [[[] sr']|]; [done| |done].
    by injection Hstep as <- _.
  - rewrite (getEventsList_cached _ _ _ p Hp) in Hstep.
    destruct (snapshots _ !! p); [|done]. by injection Hstep as <- _.
  - rewrite (getEventsList_cached _ _ _ p Hp) in Hstep.
    destruct (snapshots _ !! p); [|done].
    destruct (saveEvents _ _ _) as [fs' err]. by injection Hstep as <- _.
Qed.

Lemma eventLoop_run_keeps_cache trace : ∀ st st',
  eventLoop_run trace st = Some (st', 0) →
  is_Some (lastEvents (snapCache st)) →
  snapCache st' = snapCache st.
Proof.
  induction trace as [|[r msg] trace IH]; intros st st'; simpl.
  - by intros [= <-].
  - destruct (eventLoop_step r st msg) as [| |st1 reply] eqn:Hstep;
      [done|done|].
    destruct (eventLoop_run trace st1) as [[st2 k2]|] eqn:Hrun; [|done].
    destruct (is_mutation r st msg) eqn:Hmut; [done|].
    intros [= <- ->] Hsome.
    pose proof (eventLoop_step_keeps_cache _ _ _ _ _ Hstep Hmut Hsome) as Hc.
    rewrite <- Hc. apply IH; [done|]. by rewrite Hc.
Qed.

(** An expiration pass that returns [false] leaves a well-formed store as
    it is. *)
Lemma expireOldEvents_false sr M order now sr' :
  represents sr M → NoDup order →
  expireOldEvents order now sr = Some (false, sr') → sr' = sr.
Proof.
  intros (G & Hinv & _) Hnd. unfold expireOldEvents.
  destruct (expireUsers_store (minCreateTime now) order (heap sr)
              (eventsMap sr) G false Hnd Hinv) as (h' & m' & Hrun & _ & _).
  rewrite Hrun. simpl. intros [= Hany <-].
  rewrite (expireUsers_noop (minCreateTime now) order _ _ G false Hinv Hany)
    in Hrun.
  injection Hrun as <- <-. by destruct sr.
Qed.

(** A snapshot request on a state that satisfies the invariant. *)
Lemma getEventsList_inv st M computeTime :
  loop_inv st M →
  ∃ c p events,
    getEventsList (recorder st) (snapCache st) computeTime = Some (c, p)
    ∧ lastEvents c = Some p
    ∧ snapshots c !! p = Some events
    ∧ Events_map events = reverse <$> M.
Proof.
  intros [Hrep Hcache]. unfold getEventsList.
  destruct (lastEvents (snapCache st)) as [p|] eqn:Hp.
  - destruct (Hcache p eq_refl) as (events & Hev & Hmap).
    by exists (snapCache st), p, events.
  - rewrite (buildEventsMap_represents _ _ Hrep).
    eexists _, _, _. split; [done|]. simpl. split; [done|].
    rewrite lookup_app_r by lia. rewrite Nat.sub_diag. done.
Qed.

(** Progress and preservation: on a state that satisfies the invariant an
    iteration ends; it panics only on an SSH certificate without
    principals; otherwise the invariant holds again, an iteration that is
    not a mutation leaves the recorder as it is, and a reply is the
    snapshot of the store, every history newest first. *)
Lemma eventLoop_step_inv r st M msg :
  loop_inv st M → NoDup (rangeOrder r) →
  (∃ cert, msg = SshCert cert ∧ ValidPrincipals cert = []
           ∧ eventLoop_step r st msg = Panic)
  ∨ (∃ st' reply M',
       eventLoop_step r st msg = Next st' reply
       ∧ loop_inv st' M'
       ∧ (is_mutation r st msg = false → recorder st' = recorder st ∧ M' = M)
       ∧ ∀ events, reply = Some events → Events_map events = reverse <$> M).
Proof.
  intros Hinv Hnd. pose proof Hinv as [Hrep Hcache].
  destruct msg as [cert|cert| |ready|].
  - destruct (ValidPrincipals cert) as [|username rest] eqn:Hvp.
    + left. exists cert. simpl. by rewrite Hvp.
    + right. simpl. rewrite Hvp. simpl. eexists _, _, _. split; [done|].
      split; [|done]. split; [by apply recordEvent_represents|done].
  - right. simpl. eexists _, _, _. split; [done|].
    split; [|done]. split; [by apply recordEvent_represents|done].
  - right. simpl.
    destruct Hrep as (G & HG & HM).
    destruct (expireUsers_store (minCreateTime (unixNow r)) (rangeOrder r)
                (heap (recorder st)) (eventsMap (recorder st)) G false
                Hnd HG) as (h' & m' & Hrun & Hinv' & _).
    unfold expireOldEvents. rewrite Hrun. simpl.
    destruct (any_expired _ _ _) eqn:Hany.
    + eexists _, _, _. split; [done|]. split; [|done].
      split; [|done]. by eexists.
    + rewrite (expireUsers_noop _ _ _ _ G false HG Hany) in Hrun.
      injection Hrun as <- <-.
      exists {| recorder := {| filename := filename (recorder st);
                               heap := heap (recorder st);
                               eventsMap := eventsMap (recorder st) |};
                snapCache := snapCache st;
                saveTimerArmed := saveTimerArmed st;
                disk := disk st; logged := logged st |}, None, M.
      split; [done|]. split; [|split; [|done]].
      * split; [by exists G|done].
      * intros _. split; [by destruct (recorder st)|done].
  - right. simpl.
    destruct (getEventsList_inv st M (computeTime r) Hinv)
      as (c & p & events & -> & Hlast & Hev & Hmap).
    rewrite Hev. eexists _, _, M. split; [done|]. split; [|split; [done|]].
    + split; [done|]. simpl. intros p' Hp'. rewrite Hlast in Hp'.
      simplify_eq. eauto.
    + intros events'. destruct ready; [|done]. by intros [= <-].
  - right. simpl.
    destruct (getEventsList_inv st M (computeTime r) Hinv)
      as (c & p & events & -> & Hlast & Hev & Hmap).
    rewrite Hev. destruct (saveEvents _ _ _) as [fs' err].
    eexists _, _, M. split; [done|]. split; [|split; [done|done]].
    split; [done|]. simpl. intros p' Hp'. rewrite Hlast in Hp'.
    simplify_eq. eauto.
Qed.

End SnapshotCache.

Lemma eventLoop_init_inv sr M fs computeTime :
  represents sr M →
  ∃ st, eventLoop_init sr fs computeTime = Some st
        ∧ recorder st = sr ∧ disk st = fs
        ∧ is_Some (lastEvents (snapCache st))
        ∧ loop_inv st M.
Proof.
  intros Hrep. unfold eventLoop_init, getEventsList. simpl.
  rewrite (buildEventsMap_represents _ _ Hrep). eexists. split; [done|].
  simpl. split; [done|]. split; [done|]. split; [by eexists|].
  split; [done|]. simpl. intros p [= <-]. by eexists.
Qed.

(** C6.  (1) After a snapshot request has been served, a second request
    with no iteration in between leaves the state as it is: the cached
    pointer is the same, no snapshot is built, and both requests are
    answered with the snapshot that pointer refers to.  (2) Every
    iteration that changes the store (an append of either kind, an
    expiration that removed something) leaves the cached pointer nil.
    (3) Over any run of the loop that starts with a cached snapshot, the
    number of snapshots built is at most the number of mutations, whatever
    the number of requests.  (4) A run without a mutation that starts with
    a cached snapshot ends with the same cache: the same pointer and no
    build.  (5) On a well-formed store, an iteration that does not count
    as a mutation leaves the recorder as it is. *)
Theorem snapshot_cache_protocol :
  (∀ r1 r2 st ready1 ready2 st1 reply1,
     eventLoop_step r1 st (RequestEvents ready1) = Next st1 reply1 →
     ∃ p events,
       lastEvents (snapCache st1) = Some p
       ∧ snapshots (snapCache st1) !! p = Some events
       ∧ reply1 = (if ready1 then Some events else None)
       ∧ eventLoop_step r2 st1 (RequestEvents ready2)
         = Next st1 (if ready2 then Some events else None))
  ∧ (∀ r st msg st' reply,
       eventLoop_step r st msg = Next st' reply →
       is_mutation r st msg = true →
       lastEvents (snapCache st') = None)
  ∧ (∀ trace st st' k,
       eventLoop_run trace st = Some (st', k) →
       is_Some (lastEvents (snapCache st)) →
       builds st' ≤ builds st + k)
  ∧ (∀ trace st st',
       eventLoop_run trace st = Some (st', 0) →
       is_Some (lastEvents (snapCache st)) →
       snapCache st' = snapCache st)
  ∧ (∀ r st M msg st' reply,
       loop_inv st M → NoDup (rangeOrder r) →
       eventLoop_step r st msg = Next st' reply →
       is_mutation r st msg = false →
       recorder st' = recorder st).
Proof.
  split; [|split; [|split; [|split]]].
  - intros r1 r2 st ready1 ready2 st1 reply1. simpl.
    destruct (getEventsList _ _ _) as [[c p]|] eqn:Hget; [|done].
    destruct (snapshots c !! p) as [events|] eqn:Hp; [|done].
    intros [= <- <-]. simpl.
    apply getEventsList_result in Hget as (Hlast & _ & _).
    exists p, events. split; [done|]. split; [done|]. split; [done|].
    rewrite (getEventsList_cached _ _ _ p Hlast), Hp.
    by destruct st.
  - intros r st msg st' reply.
    destruct msg as [cert|cert| |ready|]; simpl; try done.
    + destruct (ValidPrincipals cert !! 0); [|done]. by intros [= <- _].
    + by intros [= <- _].
    + destruct (expireOldEvents _ _ _) as [[[] sr']|]; [| |done].
      * by intros [= <- _].
      * done.
  - intros trace st st' k Hrun [p Hp].
    apply eventLoop_run_builds in Hrun. unfold pending in Hrun at 2.
    rewrite Hp in Hrun. lia.
  - apply eventLoop_run_keeps_cache.
  - intros r st M msg st' reply Hinv Hnd Hstep Hmut.
    destruct (eventLoop_step_inv r st M msg Hinv Hnd)
      as [(cert & _ & _ & Hpanic) | (st1 & reply1 & M' & Hnext & _ & Hsame & _)].
    + congruence.
    + rewrite Hnext in Hstep. injection Hstep as <- _.
      by apply Hsame.
Qed.

Lemma exampleLoop_inv :
  loop_inv exampleLoop exampleHistories
  ∧ is_Some (lastEvents (snapCache exampleLoop)).
Proof.
  destruct (eventLoop_init_inv exampleRecorder exampleHistories emptyFS 3
              exampleRecorder_represents) as (st & Hinit & _ & _ & Hsome & Hinv).
  unfold exampleLoop. rewrite Hinit. exact (conj Hinv Hsome).
Qed.

Lemma snapshot_cache_protocol_witness :
  (∃ st' k,
     eventLoop_run exampleTrace exampleLoop = Some (st', k)
     ∧ k = 2 ∧ builds exampleLoop = 1 ∧ builds st' = 3
     ∧ builds st' ≤ builds exampleLoop + k)
  ∧ (∃ st' reply,
       eventLoop_step exampleReadings exampleLoop HourlyTimer
         = Next st' reply
       ∧ recorder st' = recorder exampleLoop).
Proof.
  split.
  - destruct (eventLoop_run exampleTrace exampleLoop) as [[st' k]|] eqn:Hrun.
    + exists st', k. split; [reflexivity|].
      pose proof Hrun as Hrun'. vm_compute in Hrun'.
      injection Hrun' as <- <-.
      split; [reflexivity|]. split; [reflexivity|]. split; [reflexivity|].
      destruct snapshot_cache_protocol as (_ & _ & Hbound & _).
      apply (Hbound exampleTrace exampleLoop _ _ Hrun).
      apply exampleLoop_inv.
    + vm_compute in Hrun. discriminate.
  - destruct (eventLoop_step exampleReadings exampleLoop HourlyTimer)
      as [| |st' reply] eqn:Hstep;
      [vm_compute in Hstep; discriminate
      |vm_compute in Hstep; discriminate|].
    exists st', reply. split; [reflexivity|].
    destruct snapshot_cache_protocol as (_ & _ & _ & _ & Hsame).
    apply (Hsame exampleReadings exampleLoop exampleHistories HourlyTimer
             st' reply (proj1 exampleLoop_inv)).
    + vm_compute. apply NoDup_cons. split; [|apply NoDup_singleton].
      intros Hin. apply list_elem_of_singleton in Hin. discriminate.
    + exact Hstep.
    + by vm_compute.
Defined.

(** ** Password authentication *)

Section PasswordAuthenticate.
Context {S : Type} `{Ldap.SimpleStore S}.
Implicit Types (be : Ldap.backend) (pa : Ldap.PasswordAuthenticator S).

Lemma updateOrDeletePasswordHash_nil be pa log valid username password :
  (Ldap.updateOrDeletePasswordHash be pa log valid username password).2
  = None.
Proof.
  unfold Ldap.updateOrDeletePasswordHash.
  repeat (first [done | case_match]).
Qed.

Lemma tryPatterns_nil be pa u patterns username password : ∀ log r,
  Ldap.tryPatterns be pa log u patterns username password = inl r →
  Ldap.res_err r = None.
Proof.
  induction patterns as [|bp patterns IH]; intros log r; simpl; [done|].
  destruct (Ldap.CheckLDAPUserPassword _ _ _ _ _) as [valid [e|]]; [by eauto|].
  destruct (Ldap.updateOrDeletePasswordHash _ _ _ _ _ _) as [[pa' log'] e'].
  by intros [= <-].
Qed.

Lemma tryURLs_nil be pa urls username password : ∀ log r,
  Ldap.tryURLs be pa log urls username password = inl r →
  Ldap.res_err r = None.
Proof.
  induction urls as [|u urls IH]; intros log r; simpl; [done|].
  destruct (Ldap.tryPatterns _ _ _ _ _ _ _) as [r'|log'] eqn:Hp.
  - intros [= <-]. eauto using tryPatterns_nil.
  - eauto.
Qed.

Lemma passwordAuthenticate_nil_error be pa username password :
  Ldap.res_err (Ldap.passwordAuthenticate be pa username password) = None.
Proof.
  unfold Ldap.passwordAuthenticate.
  destruct (Ldap.tryURLs _ _ _ _ _ _) as [r|log] eqn:Hu;
    [eauto using tryURLs_nil|].
  repeat (first [done | case_match]).
Qed.

(** A directory that answers and rejects the password. *)
Lemma tryURLs_rejected be pa username password :
  (∀ u d t, Ldap.CheckLDAPUserPassword be u d password t = (false, None)) →
  Ldap.ldapURL pa ≠ [] → Ldap.bindPattern pa ≠ [] →
  ∃ r, Ldap.tryURLs be pa [] (Ldap.ldapURL pa) username password = inl r
       ∧ Ldap.res_valid r = false.
Proof.
  intros Hreject Hurls Hpatterns.
  destruct (Ldap.ldapURL pa) as [|u urls]; [done|].
  destruct (Ldap.bindPattern pa) as [|bp patterns] eqn:Hbp; [done|].
  simpl. rewrite Hbp. simpl. rewrite Hreject.
  destruct (Ldap.updateOrDeletePasswordHash _ _ _ _ _ _) as [[pa' log'] e'].
  eexists. split; [done|]. done.
Qed.

(** A directory that cannot be reached. *)
Lemma tryPatterns_unreachable be pa u patterns username password : ∀ log,
  (∀ u d t, ∃ v e,
     Ldap.CheckLDAPUserPassword be u d password t = (v, Some e)) →
  ∃ log', Ldap.tryPatterns be pa log u patterns username password = inr log'.
Proof.
  intros log Hdown. revert log.
  induction patterns as [|bp patterns IH]; intros log; simpl; [eauto|].
  destruct (Hdown u (Ldap.convertToBindDN be username bp)
              (Ldap.timeoutSecs pa)) as (v & e & ->).
  apply IH.
Qed.

Lemma tryURLs_unreachable be pa urls username password : ∀ log,
  (∀ u d t, ∃ v e,
     Ldap.CheckLDAPUserPassword be u d password t = (v, Some e)) →
  ∃ log', Ldap.tryURLs be pa log urls username password = inr log'.
Proof.
  intros log Hdown. revert log.
  induction urls as [|u urls IH]; intros log; simpl; [eauto|].
  destruct (tryPatterns_unreachable be pa u (Ldap.bindPattern pa) username
              password log Hdown) as (log' & ->).
  apply IH.
Qed.

End PasswordAuthenticate.

(** C10.  [passwordAuthenticate] returns a nil error for every
    authenticator, every state of its collaborators, every username and
    every password.  A caller therefore sees the same result, [false] with
    a nil error, when the directory answers and rejects the password and
    when no directory can be reached and the hash cache has no entry for
    the user or the store of the hashes fails as well. *)
Theorem passwordAuthenticate_never_errs :
  (∀ (S : Type) (store : Ldap.SimpleStore S) (be : Ldap.backend)
     (pa : Ldap.PasswordAuthenticator S) (username password : string),
     Ldap.res_err (Ldap.passwordAuthenticate be pa username password) = None)
  ∧ (∀ (S : Type) (store : Ldap.SimpleStore S)
       (rejecting unreachable : Ldap.backend)
       (pa : Ldap.PasswordAuthenticator S) (username password : string),
       Ldap.ldapURL pa ≠ [] → Ldap.bindPattern pa ≠ [] →
       (∀ u d t,
          Ldap.CheckLDAPUserPassword rejecting u d password t
          = (false, None)) →
       (∀ u d t, ∃ v e,
          Ldap.CheckLDAPUserPassword unreachable u d password t
          = (v, Some e)) →
       match Ldap.storage pa with
       | None => Ldap.cachedCredentials pa !! username = None
       | Some s =>
           ∃ s' v d e,
             Ldap.GetSigned s username Ldap.passwordDataType
             = (s', (v, d, Some e))
       end →
       Ldap.res_valid
         (Ldap.passwordAuthenticate rejecting pa username password) = false
       ∧ Ldap.res_err
           (Ldap.passwordAuthenticate rejecting pa username password) = None
       ∧ Ldap.res_valid
           (Ldap.passwordAuthenticate unreachable pa username password)
         = false
       ∧ Ldap.res_err
           (Ldap.passwordAuthenticate unreachable pa username password)
         = None).
Proof.
  split.
  - intros. apply passwordAuthenticate_nil_error.
  - intros S store rejecting unreachable pa username password
      Hurls Hpatterns Hreject Hdown Hcache.
    split; [|split; [apply passwordAuthenticate_nil_error|
             split; [|apply passwordAuthenticate_nil_error]]].
    + unfold Ldap.passwordAuthenticate.
      destruct (tryURLs_rejected rejecting pa username password Hreject
                  Hurls Hpatterns) as (r & -> & Hvalid).
      done.
    + unfold Ldap.passwordAuthenticate.
      destruct (tryURLs_unreachable unreachable pa (Ldap.ldapURL pa) username
                  password [] Hdown) as (log' & ->).
      destruct (Ldap.storage pa) as [s|].
      * destruct Hcache as (s' & v & d & e & ->). by destruct v.
      * by rewrite Hcache.
Qed.

Lemma passwordAuthenticate_never_errs_witness :
  Ldap.res_valid
    (Ldap.passwordAuthenticate rejectingBackend exampleAuthenticator "alice"
       "guess") = false
  ∧ Ldap.res_err
      (Ldap.passwordAuthenticate rejectingBackend exampleAuthenticator
         "alice" "guess") = None
  ∧ Ldap.res_valid
      (Ldap.passwordAuthenticate unreachableBackend exampleAuthenticator
         "alice" "guess") = false
  ∧ Ldap.res_err
      (Ldap.passwordAuthenticate unreachableBackend exampleAuthenticator
         "alice" "guess") = None.
Proof.
  destruct passwordAuthenticate_never_errs as [_ Hsame].
  apply (Hsame Ldap.mapStore _ rejectingBackend unreachableBackend
           exampleAuthenticator "alice" "guess").
  - discriminate.
  - discriminate.
  - intros u d t. reflexivity.
  - intros u d t. exists false, "dial timeout". reflexivity.
  - reflexivity.
Defined.

(** ** Saving and loading back *)

Section RoundTrip.
Implicit Types (h : list eventType) (ns : nodes) (l : eventsListType).
Implicit Types (m : gmap string eventsListType) (G : gmap string nodes).
Implicit Types (sr : EventRecorder) (M : EventsMap).

Lemma loadList_store minCT (es : list EventType) : ∀ h l ns m G h' l',
  store_inv h m G → chain h l ns →
  (∀ u2 ns2 p, G !! u2 = Some ns2 → p ∈ ns.*1 → p ∈ ns2.*1 → False) →
  loadList minCT h l es = (h', l') →
  ∃ ns',
    store_inv h' m G ∧ chain h' l' ns'
    ∧ (∀ u2 ns2 p, G !! u2 = Some ns2 → p ∈ ns'.*1 → p ∈ ns2.*1 → False)
    ∧ ns'.*2 = ns.*2 ++ unexpired minCT es.
Proof.
  induction es as [|e es IH]; intros h l ns m G h' l' Hinv Hch Hapart;
    cbn [loadList].
  - intros [= <- <-]. exists ns. by rewrite app_nil_r.
  - unfold unexpired. destruct (CreateTime e <? minCT)%Z eqn:Hcmp.
    + apply Z.ltb_lt in Hcmp. rewrite filter_cons_False by lia. eauto.
    + apply Z.ltb_ge in Hcmp. rewrite filter_cons_True by lia.
      destruct (appendEvent h l e) as [h1 l1] eqn:Happ.
      destruct (appendEvent_store _ _ _ _ _ _ _ _ Hinv Hch Hapart Happ)
        as (Hinv1 & Hch1 & Hapart1).
      intros Hload.
      destruct (IH _ _ _ _ _ _ _ Hinv1 Hch1 Hapart1 Hload)
        as (ns' & ? & ? & ? & Hns').
      exists ns'. split; [done|]. split; [done|]. split; [done|].
      rewrite Hns', fmap_app. simpl. by rewrite <- app_assoc.
Qed.

Lemma loadUsers_store minCT (events : EventsMap) order : ∀ h m G h' m',
  NoDup order → (∀ u, u ∈ order → G !! u = None) → store_inv h m G →
  loadUsers order minCT events h m = (h', m') →
  ∃ G',
    store_inv h' m' G'
    ∧ ∀ u, (λ ns : nodes, ns.*2) <$> G' !! u
           = if decide (u ∈ order) then unexpired minCT <$> events !! u
             else (λ ns : nodes, ns.*2) <$> G !! u.
Proof.
  induction order as [|u order IH]; intros h m G h' m' Hnd Hfresh Hinv; simpl.
  - intros [= <- <-]. exists G. split; [done|]. intros u. done.
  - apply NoDup_cons in Hnd as [Hu Hnd].
    destruct (events !! u) as [es|] eqn:Hes.
    + destruct (loadList minCT h _ es) as [h1 l1] eqn:Hload.
      destruct (loadList_store minCT es h _ [] m G h1 l1 Hinv (chain_nil h))
        as (ns1 & Hinv1 & Hch1 & Hapart1 & Hns1); [|done|].
      { intros u2 ns2 p _ Hp. by apply not_elem_of_nil in Hp. }
      intros Hrest.
      destruct (IH h1 (<[u := l1]> m) (<[u := ns1]> G) h' m' Hnd) as
        (G' & Hinv' & HG'); [| |done|].
      { intros v Hv. rewrite lookup_insert_ne by (by intros ->).
        apply Hfresh. by apply list_elem_of_further. }
      { apply store_inv_insert; [done| |done|done].
        apply Hfresh, list_elem_of_here. }
      exists G'. split; [done|]. intros v. rewrite HG'.
      destruct (decide (v = u)) as [->|Hne].
      * rewrite decide_False by done.
        rewrite decide_True by apply list_elem_of_here.
        rewrite lookup_insert_eq, Hes. simpl. by rewrite Hns1.
      * rewrite lookup_insert_ne by done.
        destruct (decide (v ∈ order)) as [Hin|Hnin].
        -- by rewrite decide_True by (by apply list_elem_of_further).
        -- rewrite decide_False; [done|].
           intros Hin. apply elem_of_cons in Hin as [?|?]; done.
    + intros Hrest.
      destruct (IH h m G h' m' Hnd) as (G' & Hinv' & HG'); [|done|done|].
      { intros v Hv. apply Hfresh. by apply list_elem_of_further. }
      exists G'. split; [done|]. intros v. rewrite HG'.
      destruct (decide (v = u)) as [->|Hne].
      * rewrite decide_False by done.
        rewrite decide_True by apply list_elem_of_here.
        rewrite Hes, Hfresh by apply list_elem_of_here. done.
      * destruct (decide (v ∈ order)) as [Hin|Hnin].
        -- by rewrite decide_True by (by apply list_elem_of_further).
        -- rewrite decide_False; [done|].
           intros Hin. apply elem_of_cons in Hin as [?|?]; done.
Qed.

(** Loading a decodable file: the store holds, for every user of the file,
    the records of the saved slice that the cutoff keeps, the first of the
    slice as the oldest. *)
Lemma newEventRecorder_loads fs name f (events : EventsMap) order now :
  files fs !! name = Some f → Z.testbit (mode f) 8 = true →
  data f = Gob events → range_order events order →
  ∃ sr, newEventRecorder fs name order now = (Some sr, None)
        ∧ filename sr = name
        ∧ represents sr (unexpired (minCreateTime now) <$> events).
Proof.
  intros Hf Hread Hdata Horder.
  unfold newEventRecorder, loadEvents, os_Open, gob_Decode.
  rewrite Hf, Hread, Hdata.
  destruct (loadUsers order _ events [] ∅) as [h' m'] eqn:Hload. simpl.
  eexists. split; [done|]. split; [done|].
  destruct (loadUsers_store (minCreateTime now) events order [] ∅ ∅ h' m'
              (range_order_NoDup _ _ Horder)) as (G' & Hinv' & HG');
    [done|apply store_inv_empty|done|].
  exists G'. split; [done|]. apply map_eq. intros u.
  rewrite !lookup_fmap. rewrite HG'.
  destruct (decide (u ∈ order)) as [Hin|Hnin]; [done|].
  rewrite lookup_empty. simpl.
  destruct (events !! u) eqn:Hu; [|done].
  exfalso. apply Hnin. by apply (range_order_elem _ _ _ Horder).
Qed.

(** The round trip of a well-formed store, with a cutoff that keeps every
    record: each user's history comes back in reverse order. *)
Lemma save_load_reverses sr M fs order now :
  represents sr M → readOnly fs = false →
  (∀ u (es : list EventType) e, M !! u = Some es → e ∈ es →
            (minCreateTime now <= CreateTime e)%Z) →
  range_order M order →
  ∃ saved sr',
    buildEventsMap sr = Some saved
    ∧ newEventRecorder (saveEvents fs (filename sr) saved).1 (filename sr)
        order now = (Some sr', None)
    ∧ represents sr' (reverse <$> M).
Proof.
  intros Hrep Hrw Hkeep Horder.
  exists (reverse <$> M).
  destruct (newEventRecorder_loads
              (saveEvents fs (filename sr) (reverse <$> M)).1 (filename sr)
              {| mode := filePerms; data := Gob (reverse <$> M) |}
              (reverse <$> M) order now) as (sr' & Hnew & _ & Hrep').
  - unfold saveEvents, renamingWrite. rewrite Hrw. simpl.
    apply lookup_insert_eq.
  - done.
  - done.
  - unfold range_order in *. rewrite Horder.
    rewrite map_to_list_fmap, <- list_fmap_compose.
    assert (Heq : fst ∘ prod_map id reverse <$> map_to_list M
                  = (map_to_list M).*1)
      by (apply list_fmap_ext; by intros ? [] ?).
    by rewrite Heq.
  - exists sr'. split; [by apply buildEventsMap_represents|].
    split; [done|].
    assert (Heq : unexpired (minCreateTime now) <$> (reverse <$> M)
                  = reverse <$> M); [|by rewrite <- Heq].
    apply map_eq. intros u. rewrite !lookup_fmap.
    destruct (M !! u) as [l|] eqn:Hl; [|done]. simpl. f_equal.
    apply unexpired_all. intros e He. rewrite elem_of_reverse in He. eauto.
Qed.

End RoundTrip.

(** C2, the source at a store with two records for one user.  The loop
    saves the example store (the SSH record of time 5000000, then the X.509
    record of time 5000060) and the next start loads the file with a cutoff
    older than both records: the loaded history is the X.509 record, then
    the SSH record.  The order of insertion is reversed, because
    [getEventsList] hands [saveEvents] every history newest first and
    [loadEvents] rebuilds a chain taking the first saved record as the
    oldest. *)
Theorem saveThenLoad_reverses_example :
  ∃ sr',
    saveThenLoad exampleReadings exampleLoop ["alice"] 5000100 = Some sr'
    ∧ (minCreateTime 5000100 <= 5000000)%Z
    ∧ historyOf exampleRecorder "alice"
      = Some [mkEventType 5000000 3600 true false;
              mkEventType 5000060 30 false true]
    ∧ historyOf sr' "alice"
      = Some [mkEventType 5000060 30 false true;
              mkEventType 5000000 3600 true false]
    ∧ historyOf sr' "alice" ≠ historyOf exampleRecorder "alice".
Proof.
  destruct (saveThenLoad exampleReadings exampleLoop ["alice"] 5000100)
    as [sr'|] eqn:Hrun; [|vm_compute in Hrun; discriminate].
  exists sr'. split; [reflexivity|].
  vm_compute in Hrun. injection Hrun as <-.
  split; [by vm_compute|]. split; [by vm_compute|].
  split; [by vm_compute|]. by vm_compute.
Qed.

(** * Further properties *)

(** ** Quantization *)

Lemma quantize_spec_cases s :
  (0 <= s)%Z →
  (quantize_spec s = s
   ∨ (3600 <= s ∧ ∃ k, quantize_spec s = k * 3600 ∧ s < k * 3600 <= s + 60)
   ∨ (60 <= s < 3600 ∧ quantize_spec s = s + 1
      ∧ ∃ k, s + 1 = k * 60))%Z.
Proof.
  intros Hs. unfold quantize_spec.
  destruct (3600 <=? s)%Z eqn:Hh.
  - apply Z.leb_le in Hh.
    destruct (s / 3600 <? (s + 60) / 3600)%Z eqn:Hc; [|by left].
    apply Z.ltb_lt in Hc. right. left. split; [done|].
    exists ((s + 60) / 3600)%Z. split; [done|].
    Z.to_euclidean_division_equations. lia.
  - apply Z.leb_gt in Hh.
    destruct (60 <=? s)%Z eqn:Hm; [|by left].
    apply Z.leb_le in Hm.
    destruct (s / 60 <? (s + 1) / 60)%Z eqn:Hc; [|by left].
    apply Z.ltb_lt in Hc. right. right. split; [done|].
    split; [|exists ((s + 1) / 60)%Z];
      Z.to_euclidean_division_equations; lia.
Qed.

Lemma quantize_spec_fixed s k :
  (1 <= k)%Z → (s = k * 3600 ∨ (s = k * 60 ∧ s < 3600))%Z →
  quantize_spec s = s.
Proof.
  intros Hk Hs. unfold quantize_spec.
  destruct (3600 <=? s)%Z eqn:Hh.
  - apply Z.leb_le in Hh.
    destruct (s / 3600 <? (s + 60) / 3600)%Z eqn:Hc; [|done].
    apply Z.ltb_lt in Hc. exfalso.
    destruct Hs as [-> | [-> ?]]; [|lia].
    Z.to_euclidean_division_equations. lia.
  - apply Z.leb_gt in Hh.
    destruct (60 <=? s)%Z eqn:Hm; [|done].
    destruct (s / 60 <? (s + 1) / 60)%Z eqn:Hc; [|done].
    apply Z.ltb_lt in Hc. exfalso.
    destruct Hs as [-> | [-> ?]]; [lia|].
    Z.to_euclidean_division_equations. lia.
Qed.

(** X1.  Quantization never shortens a lifetime and never lengthens it by
    more than 60 seconds (by more than 1 second below an hour); the result
    is a [uint32] again, it is the input or a whole number of minutes, and
    quantizing it again changes nothing. *)
Theorem quantizeLifetime_bounds s :
  is_uint32 s →
  (s <= quantizeLifetime s <= s + 60)%Z
  ∧ (s < 3600 → quantizeLifetime s <= s + 1)%Z
  ∧ (s < 60 → quantizeLifetime s = s)%Z
  ∧ is_uint32 (quantizeLifetime s)
  ∧ (quantizeLifetime s = s ∨ quantizeLifetime s mod 60 = 0)%Z
  ∧ quantizeLifetime (quantizeLifetime s) = quantizeLifetime s.
Proof.
  intros Hs. pose proof Hs as [Hs0 Hs1].
  assert (Hq : is_uint32 (quantizeLifetime s)).
  { unfold is_uint32, quantizeLifetime, uint32.
    repeat case_match; try lia; apply Z.mod_pos_bound; lia. }
  rewrite (quantizeLifetime_refines _ Hq).
  rewrite (quantizeLifetime_refines s Hs) in *.
  assert (Hfix : quantize_spec (quantize_spec s) = quantize_spec s
                 ∧ (quantize_spec s = s ∨ quantize_spec s mod 60 = 0)%Z
                 ∧ (s <= quantize_spec s <= s + 60)%Z
                 ∧ (s < 3600 → quantize_spec s <= s + 1)%Z
                 ∧ (s < 60 → quantize_spec s = s)%Z).
  { destruct (quantize_spec_cases s Hs0)
      as [Hsame | [(Hh & k & Hk & Hrange) | (Hm & Hk & k & Hmul)]].
    - rewrite !Hsame. split; [done|]. split; [by left|]. lia.
    - rewrite !Hk. split; [apply (quantize_spec_fixed _ k); lia|].
      split; [|lia]. right.
      replace (k * 3600)%Z with (k * 60 * 60)%Z by lia.
      apply Z.mod_mul. lia.
    - rewrite !Hk. split; [|split; [|lia]].
      + destruct (Z_lt_dec (s + 1) 3600).
        * apply (quantize_spec_fixed _ k); lia.
        * apply (quantize_spec_fixed _ 1); lia.
      + right. rewrite Hmul. apply Z.mod_mul. lia. }
  destruct Hfix as (Hidem & Hmult & Hrange & Hminute & Hsecond).
  split; [done|]. split; [done|]. split; [done|]. split; [done|].
  split; done.
Qed.

Lemma quantizeLifetime_bounds_witness :
  is_uint32 7150
  ∧ (7150 <= quantizeLifetime 7150 <= 7150 + 60)%Z
  ∧ quantizeLifetime (quantizeLifetime 7150) = quantizeLifetime 7150.
Proof.
  assert (Hs : is_uint32 7150) by (unfold is_uint32; lia).
  destruct (quantizeLifetime_bounds 7150 Hs) as (Hb & _ & _ & _ & _ & Hi).
  split; [exact Hs|]. split; [exact Hb | exact Hi].
Defined.

(** ** The event store *)

Section StoreOperations.
Implicit Types (sr : EventRecorder) (M : EventsMap) (G : gmap string nodes).

Lemma drop_expired_records minCT (ns : nodes) :
  (drop_expired minCT ns).*2 = drop_before minCT ns.*2.
Proof.
  induction ns as [|[p e] ns IH]; [done|].
  rewrite fmap_cons. cbn [snd drop_expired drop_before].
  destruct (minCT <=? CreateTime e)%Z; [by rewrite fmap_cons|done].
Qed.

(** A pass of [expireOldEvents] over a well-formed store, whatever the
    order of its histories. *)
Lemma expireOldEvents_drop_before sr M order now :
  represents sr M → range_order (eventsMap sr) order →
  ∃ changed sr',
    expireOldEvents order now sr = Some (changed, sr')
    ∧ represents sr' (drop_before (minCreateTime now) <$> M)
    ∧ (changed = true
       ↔ ∃ u e l, M !! u = Some (e :: l)
                  ∧ (CreateTime e < minCreateTime now)%Z).
Proof.
  intros (G & Hinv & ->) Horder.
  destruct (expireOldEvents_store sr G order now Hinv Horder)
    as (sr' & Hrun & Hinv' & _).
  eexists _, sr'. split; [exact Hrun|]. split.
  - exists (drop_expired (minCreateTime now) <$> G). split; [done|].
    apply map_eq. intros u. rewrite !lookup_fmap.
    destruct (G !! u) as [ns|]; [|done]. simpl.
    by rewrite drop_expired_records.
  - rewrite any_expired_true. split.
    + intros (u & ns & _ & HG & Hexp).
      destruct ns as [|[p e] ns]; [done|]. simpl in Hexp.
      apply negb_true_iff, Z.leb_gt in Hexp.
      exists u, e, ns.*2. split; [|done]. by rewrite lookup_fmap, HG.
    + intros (u & e & l & Hl & Hlt). rewrite lookup_fmap in Hl.
      destruct (G !! u) as [ns|] eqn:HG; [|done].
      destruct ns as [|[p e'] ns]; [done|]. simpl in Hl. simplify_eq.
      exists u, ((p, e) :: ns). split; [|split; [done|]].
      * apply (range_order_elem _ _ _ Horder).
        destruct (eventsMap sr !! u) eqn:Hm; [done|].
        apply Hinv in Hm. congruence.
      * simpl. by apply negb_true_iff, Z.leb_gt.
Qed.

End StoreOperations.

(** X2.  In a well-formed store [recordEvent] appends one record at the
    newest end of the user's history, with the clock reading as
    [CreateTime], the quantized lifetime and the two flags as given; it
    allocates exactly one node, and it leaves the list and the history of
    every other user as they are. *)
Theorem recordEvent_appends sr M username s ssh x509 now :
  represents sr M →
  historyOf (recordEvent sr username s ssh x509 now) username
    = Some (default [] (M !! username)
            ++ [{| CreateTime := uint64 now;
                   LifetimeSeconds := quantizeLifetime s;
                   Ssh := ssh; X509 := x509 |}])
  ∧ length (heap (recordEvent sr username s ssh x509 now))
    = S (length (heap sr))
  ∧ ∀ other, other ≠ username →
      eventsMap (recordEvent sr username s ssh x509 now) !! other
        = eventsMap sr !! other
      ∧ historyOf (recordEvent sr username s ssh x509 now) other
        = historyOf sr other.
Proof.
  intros Hrep.
  pose proof (recordEvent_represents sr M username s ssh x509 now Hrep)
    as Hrep'.
  split; [|split].
  - destruct (represents_history _ _ username Hrep') as [-> _].
    by rewrite lookup_insert_eq.
  - unfold recordEvent.
    destruct (appendEvent _ _ _) as [h' l'] eqn:Happ. simpl.
    by apply appendEvent_length in Happ.
  - intros other Hne. split.
    + unfold recordEvent. destruct (appendEvent _ _ _) as [h' l']. simpl.
      by rewrite lookup_insert_ne.
    + destruct (represents_history _ _ other Hrep') as [-> _].
      destruct (represents_history _ _ other Hrep) as [-> _].
      by rewrite lookup_insert_ne.
Qed.

Lemma recordEvent_appends_witness :
  historyOf (recordEvent exampleRecorder "alice" 119 true false 5000090)
    "alice"
  = Some (default [] (exampleHistories !! "alice")
          ++ [{| CreateTime := uint64 5000090;
                 LifetimeSeconds := quantizeLifetime 119;
                 Ssh := true; X509 := false |}]).
Proof.
  destruct (recordEvent_appends exampleRecorder exampleHistories "alice" 119
              true false 5000090 exampleRecorder_represents) as [Hh _].
  exact Hh.
Defined.

(** X3.  Whatever the order of the histories, a pass of [expireOldEvents]
    over a well-formed store ends and drops from every history the records
    from the oldest end up to the first one that is not before the cutoff:
    a history whose oldest record is not before the cutoff is left whole,
    also when later records are before it.  Every user keeps an entry in
    the map, also with an empty history, and the result is [true] exactly
    when the oldest record of some user was before the cutoff. *)
Theorem expireOldEvents_drops_prefix sr M order now :
  represents sr M → range_order (eventsMap sr) order →
  ∃ changed sr',
    expireOldEvents order now sr = Some (changed, sr')
    ∧ (∀ u, historyOf sr' u
            = Some (drop_before (minCreateTime now) (default [] (M !! u))))
    ∧ (∀ u e l, M !! u = Some (e :: l) →
         (minCreateTime now <= CreateTime e)%Z →
         historyOf sr' u = Some (e :: l))
    ∧ (∀ u, is_Some (eventsMap sr' !! u) ↔ is_Some (eventsMap sr !! u))
    ∧ (changed = true
       ↔ ∃ u e l, M !! u = Some (e :: l)
                  ∧ (CreateTime e < minCreateTime now)%Z).
Proof.
  intros Hrep Horder.
  destruct (expireOldEvents_drop_before sr M order now Hrep Horder)
    as (changed & sr' & Hrun & Hrep' & Hchanged).
  assert (Hhist : ∀ u, historyOf sr' u
            = Some (drop_before (minCreateTime now) (default [] (M !! u)))).
  { intros u. destruct (represents_history _ _ u Hrep') as [-> _].
    rewrite lookup_fmap. by destruct (M !! u). }
  exists changed, sr'. split; [done|]. split; [done|].
  split; [|split; [|done]].
  - intros u e l Hl Hle. rewrite Hhist, Hl. simpl.
    apply Z.leb_le in Hle. by rewrite Hle.
  - intros u. rewrite <- !not_eq_None_Some.
    rewrite (represents_dom _ _ u Hrep'), (represents_dom _ _ u Hrep).
    by rewrite lookup_fmap, fmap_None.
Qed.

Lemma expireOldEvents_drops_prefix_witness :
  ∃ changed sr',
    expireOldEvents ["alice"] 7678430 exampleRecorder = Some (changed, sr')
    ∧ historyOf sr' "alice"
      = Some (drop_before (minCreateTime 7678430)
                (default [] (exampleHistories !! "alice"))).
Proof.
  destruct (expireOldEvents_drops_prefix exampleRecorder exampleHistories
              ["alice"] 7678430 exampleRecorder_represents
              exampleRecorder_order)
    as (changed & sr' & Hrun & Hhist & _).
  exists changed, sr'. split; [exact Hrun | exact (Hhist "alice")].
Defined.

Section AnyStore.
Implicit Types (h : list eventType) (m : gmap string eventsListType).

Lemma alter_keeps_record (f : eventType → eventType) h q p :
  (∀ n, ev (f n) = ev n) → ev <$> alter f q h !! p = ev <$> h !! p.
Proof.
  intros Hf. destruct (decide (q = p)) as [->|Hne].
  - rewrite list_lookup_alter_eq. destruct (h !! p); [|done].
    simpl. by rewrite Hf.
  - by rewrite list_lookup_alter_ne.
Qed.

Lemma expireList_keeps_records minCT fuel : ∀ h l event changed h' l' c',
  expireList fuel minCT h l event changed = Some (h', l', c') →
  length h' = length h ∧ ∀ p, ev <$> h' !! p = ev <$> h !! p.
Proof.
  induction fuel as [|fuel IH]; intros h l event changed h' l' c';
    destruct event as [p0|]; simpl; try done; try (by intros [= <- _ _]).
  destruct (h !! p0) as [node|]; [|done].
  destruct (minCT <=? CreateTime (ev node))%Z; [by intros [= <- _ _]|].
  destruct (newer node) as [q|].
  - intros Hrun. apply IH in Hrun as [Hlen Hev].
    rewrite length_alter in Hlen. split; [done|].
    intros p. rewrite Hev. by apply alter_keeps_record.
  - intros Hrun. by apply IH in Hrun.
Qed.

Lemma expireUsers_keeps_records minCT order : ∀ h m changed h' m' c',
  expireUsers order minCT h m changed = Some (h', m', c') →
  length h' = length h ∧ dom m' = dom m
  ∧ ∀ p, ev <$> h' !! p = ev <$> h !! p.
Proof.
  induction order as [|u order IH]; intros h m changed h' m' c'; simpl.
  - by intros [= <- <- _].
  - destruct (m !! u) as [l|] eqn:Hm; [|by apply IH].
    destruct (expireList _ _ _ _ _ _) as [[[h1 l1] c1]|] eqn:Hlist; [|done].
    apply expireList_keeps_records in Hlist as [Hlen1 Hev1].
    intros Hrun. apply IH in Hrun as (Hlen & Hdom & Hev).
    split; [lia|]. split.
    + rewrite Hdom. apply dom_insert_lookup_L. by rewrite Hm.
    + intros p. by rewrite Hev, Hev1.
Qed.

End AnyStore.

(** X4.  In every store, well formed or not: a pass of [expireOldEvents]
    that ends allocates and frees no node, adds and removes no user, and
    changes no record held by a node (it only writes [older] links and the
    two ends of the lists); [recordEvent] allocates one node, changes no
    record held by an existing node, and adds the user's key to the map
    when it is new. *)
Theorem store_operations_keep_records :
  (∀ sr order now changed sr',
     expireOldEvents order now sr = Some (changed, sr') →
     length (heap sr') = length (heap sr)
     ∧ dom (eventsMap sr') = dom (eventsMap sr)
     ∧ filename sr' = filename sr
     ∧ ∀ p, ev <$> heap sr' !! p = ev <$> heap sr !! p)
  ∧ (∀ sr username s ssh x509 now,
       length (heap (recordEvent sr username s ssh x509 now))
         = S (length (heap sr))
       ∧ dom (eventsMap (recordEvent sr username s ssh x509 now))
         = {[username]} ∪ dom (eventsMap sr)
       ∧ filename (recordEvent sr username s ssh x509 now) = filename sr
       ∧ ∀ p, p < length (heap sr) →
              ev <$> heap (recordEvent sr username s ssh x509 now) !! p
              = ev <$> heap sr !! p).
Proof.
  split.
  - intros sr order now changed sr'. unfold expireOldEvents.
    destruct (expireUsers _ _ _ _ _) as [[[h' m'] c']|] eqn:Hrun; [|done].
    intros [= _ <-]. simpl.
    apply expireUsers_keeps_records in Hrun as (Hlen & Hdom & Hev). done.
  - intros sr username s ssh x509 now. unfold recordEvent, appendEvent.
    simpl. split; [|split; [|split; [done|]]].
    + destruct (newest _); rewrite ?length_alter, length_app; simpl; lia.
    + apply dom_insert_L.
    + intros p Hp. destruct (newest _) as [q|].
      * rewrite alter_keeps_record by done. by rewrite lookup_app_l.
      * by rewrite lookup_app_l.
Qed.

Lemma store_operations_keep_records_witness :
  ∃ changed sr',
    expireOldEvents ["alice"] 7678430 exampleRecorder = Some (changed, sr')
    ∧ length (heap sr') = length (heap exampleRecorder)
    ∧ dom (eventsMap sr') = dom (eventsMap exampleRecorder).
Proof.
  destruct (expireOldEvents ["alice"] 7678430 exampleRecorder)
    as [[changed sr']|] eqn:Hrun; [|vm_compute in Hrun; discriminate].
  exists changed, sr'. split; [reflexivity|].
  destruct store_operations_keep_records as [Hexpire _].
  destruct (Hexpire exampleRecorder ["alice"] 7678430%Z changed sr' Hrun)
    as (Hlen & Hdom & _).
  split; [exact Hlen | exact Hdom].
Defined.

(** X5.  The retention window is 31 days to the second: a record that
    [recordEvent] appends at time [t] to an empty history is still there
    after a pass of [expireOldEvents] at time [now] when
    [now - t <= 2678400], and gone when [now - t] is larger (for clock
    readings from the first of February 1970 on, where the cutoff does not
    wrap around). *)
Theorem record_kept_for_a_month sr M username s ssh x509 t now order :
  represents sr M → default [] (M !! username) = [] →
  (0 <= t < 2 ^ 63)%Z → (durationMonth <= now < 2 ^ 63)%Z →
  range_order (eventsMap (recordEvent sr username s ssh x509 t)) order →
  ∃ changed sr',
    expireOldEvents order now (recordEvent sr username s ssh x509 t)
      = Some (changed, sr')
    ∧ historyOf sr' username
      = Some (if (now - t <=? 2678400)%Z
              then [{| CreateTime := t;
                       LifetimeSeconds := quantizeLifetime s;
                       Ssh := ssh; X509 := x509 |}]
              else []).
Proof.
  intros Hrep Hempty Ht Hnow Horder.
  pose proof (recordEvent_represents sr M username s ssh x509 t Hrep)
    as Hrep1.
  destruct (expireOldEvents_drop_before _ _ order now Hrep1 Horder)
    as (changed & sr' & Hrun & Hrep' & _).
  exists changed, sr'. split; [done|].
  destruct (represents_history _ _ username Hrep') as [-> _].
  rewrite lookup_fmap, lookup_insert_eq, Hempty.
  unfold record_of.
  cbn [fmap option_fmap option_map default app drop_before
       CreateTime n_now n_lifetime n_ssh n_x509].
  f_equal.
  assert (Hcut : minCreateTime now = (now - 2678400)%Z).
  { unfold minCreateTime, uint64, durationMonth in *.
    apply Z.mod_small. lia. }
  assert (Hcreate : uint64 t = t) by (apply Z.mod_small; lia).
  rewrite Hcut, !Hcreate.
  destruct (now - t <=? 2678400)%Z eqn:Hkeep.
  - apply Z.leb_le in Hkeep.
    by rewrite (proj2 (Z.leb_le (now - 2678400) t)) by lia.
  - apply Z.leb_gt in Hkeep.
    by rewrite (proj2 (Z.leb_gt (now - 2678400) t)) by lia.
Qed.

Lemma record_kept_for_a_month_witness :
  ∃ changed sr',
    expireOldEvents ["bob"] 7678401
      (recordEvent (emptyRecorder "events") "bob" 30 true false 5000000)
      = Some (changed, sr')
    ∧ historyOf sr' "bob" = Some [].
Proof.
  assert (Horder : range_order
            (eventsMap (recordEvent (emptyRecorder "events") "bob" 30 true
                          false 5000000)) ["bob"])
    by (unfold range_order; by vm_compute).
  destruct (record_kept_for_a_month (emptyRecorder "events") ∅ "bob" 30 true
              false 5000000 7678401 ["bob"] (represents_empty "events")
              eq_refl ltac:(lia) ltac:(unfold durationMonth; lia) Horder)
    as (changed & sr' & Hrun & Hhist).
  exists changed, sr'. split; [exact Hrun | exact Hhist].
Defined.

(** ** The durable log *)

(** X6.  [newEventRecorder] on a history file that opens and decodes
    returns a recorder and no error; the recorder holds, for every user of
    the file, the records of the saved slice that are not before the
    cutoff of 31 days, the first of the slice as the oldest; a user whose
    records are all before the cutoff keeps an entry with an empty history;
    users that are not in the file have no entry. *)
Theorem newEventRecorder_filters fs name f (events : EventsMap) order now :
  files fs !! name = Some f → Z.testbit (mode f) 8 = true →
  data f = Gob events → range_order events order →
  ∃ sr,
    newEventRecorder fs name order now = (Some sr, None)
    ∧ filename sr = name
    ∧ represents sr (unexpired (minCreateTime now) <$> events)
    ∧ (∀ u, historyOf sr u
            = Some (unexpired (minCreateTime now)
                      (default [] (events !! u))))
    ∧ (∀ u, is_Some (eventsMap sr !! u) ↔ is_Some (events !! u)).
Proof.
  intros Hf Hread Hdata Horder.
  destruct (newEventRecorder_loads fs name f events order now Hf Hread Hdata
              Horder) as (sr & Hnew & Hname & Hrep).
  exists sr. split; [done|]. split; [done|]. split; [done|]. split.
  - intros u. destruct (represents_history _ _ u Hrep) as [-> _].
    rewrite lookup_fmap. by destruct (events !! u).
  - intros u. rewrite <- !not_eq_None_Some.
    rewrite (represents_dom _ _ u Hrep). by rewrite lookup_fmap, fmap_None.
Qed.

Lemma newEventRecorder_filters_witness :
  ∃ sr,
    newEventRecorder exampleSavedFS "events" ["alice"] 7678430
      = (Some sr, None)
    ∧ historyOf sr "alice"
      = Some (unexpired (minCreateTime 7678430)
                (default [] (exampleSaved !! "alice"))).
Proof.
  assert (Hf : files exampleSavedFS !! "events" = Some exampleSavedFile)
    by (by vm_compute).
  assert (Horder : range_order exampleSaved ["alice"])
    by (unfold range_order; by vm_compute).
  destruct (newEventRecorder_filters exampleSavedFS "events" exampleSavedFile
              exampleSaved ["alice"] 7678430 Hf eq_refl eq_refl Horder)
    as (sr & Hnew & _ & _ & Hhist & _).
  exists sr. split; [exact Hnew | exact (Hhist "alice")].
Defined.

(** ** The actor loop, on well-formed states *)

Section LoopInvariant.
Implicit Types (st : loopState) (r : readings) (M : EventsMap).

Lemma eventLoop_run_inv trace : ∀ st M st' k,
  loop_inv st M → orders_NoDup trace →
  eventLoop_run trace st = Some (st', k) →
  ∃ M', loop_inv st' M'.
Proof.
  induction trace as [|[r msg] trace IH]; intros st M st' k Hinv Hnd; simpl.
  - intros [= <- _]. eauto.
  - apply Forall_cons in Hnd as [Hr Hnd]. simpl in Hr.
    destruct (eventLoop_step_inv r st M msg Hinv Hr)
      as [(cert & _ & _ & ->) | (st1 & reply & M1 & -> & Hinv1 & _)];
      [done|].
    destruct (eventLoop_run trace st1) as [[st2 k2]|] eqn:Hrun; [|done].
    intros [= <- _]. eauto.
Qed.


End LoopInvariant.





(** X9.  After any run of the loop from a well-formed state, the next
    request that finds its reply channel ready is answered, and the answer
    is the snapshot of the store as it is then: it has an entry for
    exactly the users of [eventsMap], and the entry of a user is the walk
    of that user's chain from [newest] along [older].  No reply is ever
    stale. *)
Theorem replies_are_current trace st M st' k r :
  loop_inv st M → orders_NoDup trace →
  eventLoop_run trace st = Some (st', k) →
  ∃ st'' events,
    eventLoop_step r st' (RequestEvents true) = Next st'' (Some events)
    ∧ recorder st'' = recorder st'
    ∧ (∀ u, is_Some (Events_map events !! u)
            ↔ is_Some (eventsMap (recorder st') !! u))
    ∧ (∀ u l, Events_map events !! u = Some l →
              historyNewestFirst (recorder st') u = Some l).
Proof.
  intros Hinv Hnd Hrun.
  destruct (eventLoop_run_inv trace st M st' k Hinv Hnd Hrun) as [M' Hinv'].
  pose proof Hinv' as [Hrep' _]. simpl.
  destruct (getEventsList_inv st' M' (computeTime r) Hinv')
    as (c & p & events & -> & Hlast & Hev & Hmap).
  rewrite Hev. eexists _, events. split; [done|]. split; [done|].
  rewrite Hmap. split.
  - intros u. rewrite <- !not_eq_None_Some.
    rewrite (represents_dom _ _ u Hrep'). by rewrite lookup_fmap, fmap_None.
  - intros u l Hl. destruct (represents_history _ _ u Hrep') as [_ ->].
    rewrite lookup_fmap in Hl. destruct (M' !! u); by simplify_eq.
Qed.

Lemma exampleTrace_orders : orders_NoDup exampleTrace.
Proof.
  apply Forall_forall. intros [r msg] Hin.
  assert (Hr : r = exampleReadings).
  { unfold exampleTrace in Hin.
    repeat (apply elem_of_cons in Hin as [Hin|Hin]; [by simplify_eq|]).
    by apply not_elem_of_nil in Hin. }
  subst r. simpl. apply NoDup_cons. split; [|apply NoDup_singleton].
  intros Hin'. apply list_elem_of_singleton in Hin'. discriminate.
Qed.

Lemma replies_are_current_witness :
  ∃ st' k st'' events,
    eventLoop_run exampleTrace exampleLoop = Some (st', k)
    ∧ eventLoop_step exampleReadings st' (RequestEvents true)
      = Next st'' (Some events)
    ∧ ∀ u l, Events_map events !! u = Some l →
             historyNewestFirst (recorder st') u = Some l.
Proof.
  destruct (eventLoop_run exampleTrace exampleLoop) as [[st' k]|] eqn:Hrun;
    [|vm_compute in Hrun; discriminate].
  destruct (replies_are_current exampleTrace exampleLoop exampleHistories
              st' k exampleReadings (proj1 exampleLoop_inv)
              exampleTrace_orders Hrun)
    as (st'' & events & Hstep & _ & _ & Hcur).
  exists st', k, st'', events. split; [reflexivity|].
  split; [exact Hstep | exact Hcur].
Defined.



(** ** The LDAP authenticator *)

Section NewAuthenticator.
Variable ParseLDAPURL : string → string + Ldap.err.

Lemma parseURLs_ok urllist : ∀ parsed urls,
  Forall2 (λ s u, ParseLDAPURL s = inl u) urllist urls →
  Ldap.parseURLs ParseLDAPURL urllist parsed = inl (parsed ++ urls).
Proof.
  induction urllist as [|s urllist IH]; intros parsed urls Hall.
  - apply Forall2_nil_inv_l in Hall as ->. simpl. by rewrite app_nil_r.
  - apply Forall2_cons_inv_l in Hall as (u & urls' & Hs & Hall & ->).
    simpl. rewrite Hs. rewrite (IH _ urls' Hall).
    by rewrite <- app_assoc.
Qed.

Lemma parseURLs_fails good : ∀ bad rest e parsed,
  Forall (λ s, ∃ u, ParseLDAPURL s = inl u) good →
  ParseLDAPURL bad = inr e →
  Ldap.parseURLs ParseLDAPURL (good ++ bad :: rest) parsed = inr e.
Proof.
  induction good as [|s good IH]; intros bad rest e parsed Hgood Hbad.
  - simpl. by rewrite Hbad.
  - apply Forall_cons in Hgood as [[u Hs] Hgood]. simpl. rewrite Hs.
    by apply IH.
Qed.

End NewAuthenticator.

(** X11.  [newAuthenticator] parses the URLs in order.  When each of them
    parses it returns an authenticator and no error: the parsed URLs in the
    order given, the bind patterns, the store and the logger as given, a
    cache duration of 96 hours and an empty cache.  When one does not
    parse it returns no authenticator and the error of the first URL that
    fails; the URLs after it are not looked at. *)
Theorem newAuthenticator_result :
  (∀ (S : Type) ParseLDAPURL urllist bindPattern timeoutSecs
     (storage : option S) logger urls,
     Forall2 (λ s u, ParseLDAPURL s = inl u) urllist urls →
     ∃ pa,
       Ldap.newAuthenticator ParseLDAPURL urllist bindPattern timeoutSecs
         storage logger = (Some pa, None)
       ∧ Ldap.ldapURL pa = urls
       ∧ Ldap.bindPattern pa = bindPattern
       ∧ Ldap.storage pa = storage
       ∧ Ldap.logger pa = logger
       ∧ Ldap.expirationDuration pa = (96 * 3600)%Z
       ∧ Ldap.cachedCredentials pa = ∅)
  ∧ (∀ (S : Type) ParseLDAPURL good bad rest e bindPattern timeoutSecs
       (storage : option S) logger,
       Forall (λ s, ∃ u, ParseLDAPURL s = inl u) good →
       ParseLDAPURL bad = inr e →
       Ldap.newAuthenticator ParseLDAPURL (good ++ bad :: rest) bindPattern
         timeoutSecs storage logger = (None, Some e)).
Proof.
  split.
  - intros S ParseLDAPURL urllist bindPattern timeoutSecs storage logger urls
      Hall.
    unfold Ldap.newAuthenticator.
    rewrite (parseURLs_ok ParseLDAPURL urllist [] urls Hall). simpl.
    eexists. split; [done|]. by simpl.
  - intros S ParseLDAPURL good bad rest e bindPattern timeoutSecs storage
      logger Hgood Hbad.
    unfold Ldap.newAuthenticator.
    by rewrite (parseURLs_fails ParseLDAPURL good bad rest e [] Hgood Hbad).
Qed.

Lemma newAuthenticator_result_witness :
  (∃ pa : Ldap.PasswordAuthenticator Ldap.mapStore,
     Ldap.newAuthenticator exampleParse
       ["ldaps://a.example.com"; "ldaps://b.example.com"] ["uid=%s"] 3
       None true = (Some pa, None)
     ∧ Ldap.ldapURL pa = ["ldaps://a.example.com"; "ldaps://b.example.com"])
  ∧ Ldap.newAuthenticator (S := Ldap.mapStore) exampleParse
      (["ldaps://a.example.com"] ++ "http://b.example.com"
         :: ["ldaps://c.example.com"]) ["uid=%s"] 3 None true
    = (None, Some "unsupported scheme").
Proof.
  destruct newAuthenticator_result as [Hok Hfail]. split.
  - destruct (Hok Ldap.mapStore exampleParse
                ["ldaps://a.example.com"; "ldaps://b.example.com"]
                ["uid=%s"] 3%Z None true
                ["ldaps://a.example.com"; "ldaps://b.example.com"])
      as (pa & Hnew & Hurls & _).
    + repeat constructor.
    + exists pa. split; [exact Hnew | exact Hurls].
  - apply (Hfail Ldap.mapStore exampleParse ["ldaps://a.example.com"]
             "http://b.example.com" ["ldaps://c.example.com"]
             "unsupported scheme").
    + repeat constructor. by eexists.
    + reflexivity.
Defined.

(** X12.  The time-out that [newAuthenticator] keeps: when the time-out
    asked for, times the number of URLs, is at most 7 seconds (the time a
    browser waits) it is kept; otherwise it becomes 7 divided by the number
    of URLs, rounded down.  So the time-outs of all the servers together
    never exceed 7 seconds, and with more than seven URLs and a time-out
    asked for that is not zero the time-out kept is zero.  (For a product
    that fits [uint].) *)
Theorem newAuthenticator_timeout (S : Type) ParseLDAPURL urllist bindPattern
    timeoutSecs (storage : option S) logger urls :
  Forall2 (λ s u, ParseLDAPURL s = inl u) urllist urls →
  (0 <= timeoutSecs)%Z →
  (timeoutSecs * Z.of_nat (length urllist) < 2 ^ 64)%Z →
  ∃ pa,
    Ldap.newAuthenticator ParseLDAPURL urllist bindPattern timeoutSecs
      storage logger = (Some pa, None)
    ∧ (0 <= Ldap.timeoutSecs pa <= timeoutSecs)%Z
    ∧ (Ldap.timeoutSecs pa * Z.of_nat (length urllist) <= 7)%Z
    ∧ (timeoutSecs * Z.of_nat (length urllist) <= 7 →
       Ldap.timeoutSecs pa = timeoutSecs)%Z
    ∧ (7 < timeoutSecs * Z.of_nat (length urllist) →
       Ldap.timeoutSecs pa = 7 / Z.of_nat (length urllist))%Z
    ∧ (7 < length urllist → (0 < timeoutSecs)%Z →
       Ldap.timeoutSecs pa = 0%Z).
Proof.
  intros Hall Ht Hfit.
  pose proof (Forall2_length _ _ _ Hall) as Hlen.
  unfold Ldap.newAuthenticator.
  rewrite (parseURLs_ok ParseLDAPURL urllist [] urls Hall). simpl.
  eexists. split; [done|]. simpl. rewrite <- Hlen.
  set (n := Z.of_nat (length urllist)) in *.
  assert (Hn : (0 <= n)%Z) by lia.
  assert (Hprod : uint64 (timeoutSecs * n) = (timeoutSecs * n)%Z).
  { unfold uint64. apply Z.mod_small. nia. }
  rewrite Hprod. unfold Ldap.browserResponseTimeoutSeconds.
  destruct (7 <? timeoutSecs * n)%Z eqn:Hcmp.
  - apply Z.ltb_lt in Hcmp.
    assert (Hn1 : (1 <= n)%Z) by nia.
    assert (Hq : (0 <= 7 / n ∧ 7 / n * n <= 7)%Z).
    { split; [apply Z.div_pos; lia|].
      rewrite Z.mul_comm. apply Z.mul_div_le. lia. }
    assert (Hle : (7 / n <= timeoutSecs)%Z).
    { apply Z.div_le_upper_bound; [lia|]. nia. }
    split; [lia|]. split; [lia|]. split; [lia|]. split; [done|].
    intros Hmany _. apply Z.div_small. lia.
  - apply Z.ltb_ge in Hcmp.
    split; [lia|]. split; [lia|]. split; [done|]. split; [lia|].
    intros Hmany Hpos. nia.
Qed.

Lemma newAuthenticator_timeout_witness :
  ∃ pa : Ldap.PasswordAuthenticator Ldap.mapStore,
    Ldap.newAuthenticator exampleParse
      ["ldaps://a.example.com"; "ldaps://b.example.com"] ["uid=%s"] 5
      None true = (Some pa, None)
    ∧ (Ldap.timeoutSecs pa * Z.of_nat 2 <= 7)%Z.
Proof.
  destruct (newAuthenticator_timeout Ldap.mapStore exampleParse
              ["ldaps://a.example.com"; "ldaps://b.example.com"] ["uid=%s"]
              5 None true
              ["ldaps://a.example.com"; "ldaps://b.example.com"])
    as (pa & Hnew & _ & Hbound & _).
  - repeat constructor.
  - lia.
  - simpl. lia.
  - exists pa. split; [exact Hnew | exact Hbound].
Defined.

Section Authentication.
Context {S : Type} `{Ldap.SimpleStore S}.
Implicit Types (be : Ldap.backend) (pa : Ldap.PasswordAuthenticator S).

Lemma tryPatterns_answers be pa u patterns username password : ∀ log,
  match Ldap.tryPatterns be pa log u patterns username password with
  | inl r =>
      ∃ valid rest log1,
        omap (ldapAnswer be pa u username password) patterns = valid :: rest
        ∧ Ldap.res_valid r = valid
        ∧ Ldap.res_pa r
          = (Ldap.updateOrDeletePasswordHash be pa log1 valid username
               password).1.1
  | inr _ => omap (ldapAnswer be pa u username password) patterns = []
  end.
Proof.
  induction patterns as [|bp patterns IH]; intros log; [done|].
  cbn [Ldap.tryPatterns omap list_omap].
  destruct (Ldap.CheckLDAPUserPassword be u
              (Ldap.convertToBindDN be username bp) password
              (Ldap.timeoutSecs pa)) as [valid o] eqn:Hcheck.
  assert (Ha : ldapAnswer be pa u username password bp
               = match o with Some _ => None | None => Some valid end)
    by (unfold ldapAnswer; by rewrite Hcheck).
  rewrite Ha. destruct o as [e|].
  - apply IH.
  - destruct (Ldap.updateOrDeletePasswordHash be pa log valid username
                password) as [[pa' log'] e'] eqn:Hupd.
    exists valid, (omap (ldapAnswer be pa u username password) patterns), log.
    by rewrite Hupd.
Qed.

Lemma tryURLs_answers be pa urls username password : ∀ log,
  match Ldap.tryURLs be pa log urls username password with
  | inl r =>
      ∃ valid rest log1,
        (u ← urls;
           omap (ldapAnswer be pa u username password) (Ldap.bindPattern pa))
          = valid :: rest
        ∧ Ldap.res_valid r = valid
        ∧ Ldap.res_pa r
          = (Ldap.updateOrDeletePasswordHash be pa log1 valid username
               password).1.1
  | inr _ =>
      (u ← urls;
         omap (ldapAnswer be pa u username password) (Ldap.bindPattern pa))
      = []
  end.
Proof.
  induction urls as [|u urls IH]; intros log; [done|].
  cbn [Ldap.tryURLs]. rewrite bind_cons.
  pose proof (tryPatterns_answers be pa u (Ldap.bindPattern pa) username
                password log) as Hp.
  destruct (Ldap.tryPatterns _ _ _ _ _ _ _) as [r|log'].
  - destruct Hp as (valid & rest & log1 & -> & Hv & Hpa).
    exists valid. eexists. exists log1. done.
  - rewrite Hp. simpl. apply IH.
Qed.

(** When the directory answers, the first answer is the result. *)
Lemma passwordAuthenticate_online be pa username password valid rest :
  ldapAnswers be pa username password = valid :: rest →
  ∃ log1,
    Ldap.res_valid (Ldap.passwordAuthenticate be pa username password)
      = valid
    ∧ Ldap.res_pa (Ldap.passwordAuthenticate be pa username password)
      = (Ldap.updateOrDeletePasswordHash be pa log1 valid username
           password).1.1.
Proof.
  unfold ldapAnswers, Ldap.passwordAuthenticate. intros Hans.
  pose proof (tryURLs_answers be pa (Ldap.ldapURL pa) username password [])
    as Hu.
  destruct (Ldap.tryURLs _ _ _ _ _ _) as [r|log'].
  - destruct Hu as (valid' & rest' & log1 & Heq & Hv & Hpa).
    rewrite Hans in Heq. simplify_eq. eauto.
  - rewrite Hans in Hu. done.
Qed.

(** When the directory does not answer, the loops end without a result. *)
Lemma passwordAuthenticate_offline be pa username password :
  ldapAnswers be pa username password = [] →
  ∃ log, Ldap.tryURLs be pa [] (Ldap.ldapURL pa) username password = inr log.
Proof.
  unfold ldapAnswers. intros Hans.
  pose proof (tryURLs_answers be pa (Ldap.ldapURL pa) username password [])
    as Hu.
  destruct (Ldap.tryURLs _ _ _ _ _ _) as [r|log']; [|eauto].
  destruct Hu as (valid' & rest' & log1 & Heq & _).
  rewrite Hans in Heq. done.
Qed.

End Authentication.

(** X13.  When some bind of the directory returns without an error, the
    result of [passwordAuthenticate] is the answer of the first such bind,
    in the order of the URLs and, for each URL, of the bind patterns, with
    a nil error; the binds after it are not consulted, so a rejection
    under the first pattern that answers is final also when a later
    pattern or server would accept. *)
Theorem passwordAuthenticate_first_answer (S : Type)
    (store : Ldap.SimpleStore S) be (pa : Ldap.PasswordAuthenticator S)
    username password valid rest :
  ldapAnswers be pa username password = valid :: rest →
  Ldap.res_valid (Ldap.passwordAuthenticate be pa username password) = valid
  ∧ Ldap.res_err (Ldap.passwordAuthenticate be pa username password) = None.
Proof.
  intros Hans.
  destruct (passwordAuthenticate_online be pa username password valid rest
              Hans) as (log1 & Hvalid & _).
  split; [done|]. apply passwordAuthenticate_nil_error.
Qed.

Lemma passwordAuthenticate_first_answer_witness :
  Ldap.res_valid
    (Ldap.passwordAuthenticate rejectingBackend exampleAuthenticator "alice"
       "guess") = false.
Proof.
  destruct (passwordAuthenticate_first_answer Ldap.mapStore _
              rejectingBackend exampleAuthenticator "alice" "guess" false []
              eq_refl) as [Hvalid _].
  exact Hvalid.
Defined.

(** X14.  When no bind of the directory returns without an error, the
    answer comes from the cache of hashes.  Without a store: the result is
    [true] exactly when the map holds an entry for the user whose hash
    matches the password and whose expiration is after the clock reading,
    and the authenticator is left as it is.  With a store: the result is
    [true] exactly when [GetSigned] returns an entry without an error and
    its hash matches the password (the authenticator compares no
    expiration itself), and the map of the authenticator is not
    changed. *)
Theorem passwordAuthenticate_offline_answer (S : Type)
    (store : Ldap.SimpleStore S) be (pa : Ldap.PasswordAuthenticator S)
    username password :
  ldapAnswers be pa username password = [] →
  match Ldap.storage pa with
  | None =>
      (Ldap.res_valid (Ldap.passwordAuthenticate be pa username password)
         = true
       ↔ ∃ entry,
           Ldap.cachedCredentials pa !! username = Some entry
           ∧ Ldap.Argon2CompareHashAndPassword be (Ldap.Hash entry) password
             = None
           ∧ (Ldap.timeNow be < Ldap.Expiration entry)%Z)
      ∧ Ldap.res_pa (Ldap.passwordAuthenticate be pa username password) = pa
  | Some s =>
      (Ldap.res_valid (Ldap.passwordAuthenticate be pa username password)
         = true
       ↔ ∃ s' hash,
           Ldap.GetSigned s username Ldap.passwordDataType
             = (s', (true, hash, None))
           ∧ Ldap.Argon2CompareHashAndPassword be hash password = None)
      ∧ Ldap.cachedCredentials
          (Ldap.res_pa (Ldap.passwordAuthenticate be pa username password))
        = Ldap.cachedCredentials pa
  end.
Proof.
  intros Hans.
  destruct (passwordAuthenticate_offline be pa username password Hans)
    as [log Hloops].
  unfold Ldap.passwordAuthenticate. rewrite Hloops.
  destruct (Ldap.storage pa) as [s|] eqn:Hst.
  - destruct (Ldap.GetSigned s username Ldap.passwordDataType)
      as [s' [[ok hash] [e|]]] eqn:Hget.
    + destruct ok; (split; [|done]); (split; [done|]);
        intros (s'' & hash'' & Heq & _); done.
    + destruct ok.
      * destruct (Ldap.Argon2CompareHashAndPassword be hash password)
          as [e|] eqn:Hcmp; (split; [|done]).
        -- split; [done|]. intros (s'' & hash'' & Heq & Hc).
           simplify_eq; congruence.
        -- split; [|done]. intros _. by exists s', hash.
      * split; [|done]. split; [done|].
        intros (s'' & hash'' & Heq & _). done.
  - destruct (Ldap.cachedCredentials pa !! username) as [entry|] eqn:Hc.
    + destruct (Ldap.Argon2CompareHashAndPassword be (Ldap.Hash entry)
                  password) as [e|] eqn:Hcmp.
      * split; [|done]. split; [done|].
        intros (entry' & Heq & Hc' & _). simplify_eq; congruence.
      * destruct (0 <? Ldap.Expiration entry - Ldap.timeNow be)%Z eqn:Hexp;
          (split; [|done]).
        -- apply Z.ltb_lt in Hexp. split; [|done]. intros _.
           exists entry. split; [done|]. split; [done|]. lia.
        -- apply Z.ltb_ge in Hexp. split; [done|].
           intros (entry' & Heq & _ & Hlt). simplify_eq; lia.
    + split; [|done]. split; [done|]. intros (entry' & Heq & _). done.
Qed.

Lemma passwordAuthenticate_offline_answer_witness :
  (Ldap.res_valid
     (Ldap.passwordAuthenticate unreachableBackend exampleAuthenticator
        "alice" "guess") = true
   ↔ ∃ entry,
       Ldap.cachedCredentials exampleAuthenticator !! "alice" = Some entry
       ∧ Ldap.Argon2CompareHashAndPassword unreachableBackend
           (Ldap.Hash entry) "guess" = None
       ∧ (Ldap.timeNow unreachableBackend < Ldap.Expiration entry)%Z)
  ∧ Ldap.res_pa
      (Ldap.passwordAuthenticate unreachableBackend exampleAuthenticator
         "alice" "guess") = exampleAuthenticator.
Proof.
  exact (passwordAuthenticate_offline_answer Ldap.mapStore _
           unreachableBackend exampleAuthenticator "alice" "guess" eq_refl).
Defined.

(** X15.  A login that the directory accepts returns [true] and refreshes
    the cached hash: without a store the map gets, under the username, the
    new hash with the expiration [now + expirationDuration] (the entries
    of other users are kept); with a store the hash is upserted with that
    expiration, and the login succeeds also when the upsert fails.  When
    the hash cannot be made the login still returns [true] and the
    authenticator is left as it is. *)
Theorem accepted_login_caches_hash (S : Type) (store : Ldap.SimpleStore S)
    be (pa : Ldap.PasswordAuthenticator S) username password rest :
  ldapAnswers be pa username password = true :: rest →
  Ldap.res_valid (Ldap.passwordAuthenticate be pa username password) = true
  ∧ match Ldap.Argon2MakeNewHash be password with
    | (_, Some _) =>
        Ldap.res_pa (Ldap.passwordAuthenticate be pa username password) = pa
    | (hash, None) =>
        match Ldap.storage pa with
        | None =>
            Ldap.res_pa (Ldap.passwordAuthenticate be pa username password)
            = Ldap.set_cached pa
                (<[username :=
                     {| Ldap.Hash := hash;
                        Ldap.Expiration :=
                          (Ldap.timeNow be + Ldap.expirationDuration pa)%Z
                     |}]> (Ldap.cachedCredentials pa))
        | Some s =>
            Ldap.res_pa (Ldap.passwordAuthenticate be pa username password)
            = Ldap.set_storage pa
                (Ldap.UpsertSigned s username Ldap.passwordDataType
                   (Ldap.timeNow be + Ldap.expirationDuration pa)%Z hash).1
        end
    end.
Proof.
  intros Hans.
  destruct (passwordAuthenticate_online be pa username password true rest
              Hans) as (log1 & Hvalid & Hpa).
  split; [done|]. rewrite Hpa. unfold Ldap.updateOrDeletePasswordHash.
  destruct (Ldap.Argon2MakeNewHash be password) as [hash [e|]]; [done|].
  destruct (Ldap.storage pa) as [s|]; [|done].
  by destruct (Ldap.UpsertSigned _ _ _ _ _) as [s' [e|]].
Qed.

Lemma accepted_login_caches_hash_witness :
  Ldap.res_valid
    (Ldap.passwordAuthenticate acceptingBackend exampleAuthenticator "alice"
       "secret") = true
  ∧ Ldap.res_pa
      (Ldap.passwordAuthenticate acceptingBackend exampleAuthenticator
         "alice" "secret")
    = Ldap.set_cached exampleAuthenticator
        (<["alice" :=
             {| Ldap.Hash := "secret";
                Ldap.Expiration :=
                  (Ldap.timeNow acceptingBackend
                   + Ldap.expirationDuration exampleAuthenticator)%Z |}]>
           (Ldap.cachedCredentials exampleAuthenticator)).
Proof.
  exact (accepted_login_caches_hash Ldap.mapStore _ acceptingBackend
           exampleAuthenticator "alice" "secret" [] eq_refl).
Defined.

(** X16.  After a login that the directory accepted (no store, the hash
    made), a later login at a time when the directory does not answer
    succeeds exactly when the password tried matches the cached hash and
    the clock is still before the expiration, that is less than
    [expirationDuration] after the accepted login. *)
Theorem offline_login_after_accepted_login (S : Type)
    (store : Ldap.SimpleStore S) online offline
    (pa : Ldap.PasswordAuthenticator S) username password hash rest attempt :
  ldapAnswers online pa username password = true :: rest →
  Ldap.storage pa = None →
  Ldap.Argon2MakeNewHash online password = (hash, None) →
  ldapAnswers offline
    (Ldap.res_pa (Ldap.passwordAuthenticate online pa username password))
    username attempt = [] →
  Ldap.res_valid
    (Ldap.passwordAuthenticate offline
       (Ldap.res_pa (Ldap.passwordAuthenticate online pa username password))
       username attempt) = true
  ↔ Ldap.Argon2CompareHashAndPassword offline hash attempt = None
    ∧ (Ldap.timeNow offline
       < Ldap.timeNow online + Ldap.expirationDuration pa)%Z.
Proof.
  intros Hans Hst Hhash Hoff.
  destruct (passwordAuthenticate_online online pa username password true rest
              Hans) as (log1 & _ & Hpa).
  assert (Hpa' : Ldap.res_pa
                   (Ldap.passwordAuthenticate online pa username password)
                 = Ldap.set_cached pa
                     (<[username :=
                          {| Ldap.Hash := hash;
                             Ldap.Expiration :=
                               (Ldap.timeNow online
                                + Ldap.expirationDuration pa)%Z |}]>
                        (Ldap.cachedCredentials pa))).
  { rewrite Hpa. unfold Ldap.updateOrDeletePasswordHash.
    by rewrite Hhash, Hst. }
  rewrite Hpa' in *.
  destruct (passwordAuthenticate_offline offline _ username attempt Hoff)
    as [log Hloops].
  unfold Ldap.passwordAuthenticate. rewrite Hloops. simpl. rewrite Hst.
  rewrite lookup_insert_eq. simpl.
  destruct (Ldap.Argon2CompareHashAndPassword offline hash attempt) as [e|].
  - simpl. split; [done|]. by intros [? _].
  - destruct (0 <? _)%Z eqn:Hexp; simpl.
    + apply Z.ltb_lt in Hexp. split; [|done]. intros _. split; [done|lia].
    + apply Z.ltb_ge in Hexp. split; [done|]. intros [_ Hlt]. lia.
Qed.

Lemma offline_login_after_accepted_login_witness :
  Ldap.res_valid
    (Ldap.passwordAuthenticate unreachableBackend
       (Ldap.res_pa
          (Ldap.passwordAuthenticate acceptingBackend exampleAuthenticator
             "alice" "secret")) "alice" "secret") = true
  ↔ Ldap.Argon2CompareHashAndPassword unreachableBackend "secret" "secret"
    = None
    ∧ (Ldap.timeNow unreachableBackend
       < Ldap.timeNow acceptingBackend
         + Ldap.expirationDuration exampleAuthenticator)%Z.
Proof.
  exact (offline_login_after_accepted_login Ldap.mapStore _ acceptingBackend
           unreachableBackend exampleAuthenticator "alice" "secret" "secret"
           [] "secret" eq_refl eq_refl eq_refl eq_refl).
Defined.

(** X17.  A login that the directory rejects returns [false], and (no
    store) it evicts the user's cached hash exactly when the rejected
    password is the one that is cached: after that no password is
    accepted for the user while the directory does not answer.  When the
    rejected password does not match the cached hash, or nothing is
    cached, the authenticator is left as it is. *)
Theorem rejected_login_evicts_hash (S : Type) (store : Ldap.SimpleStore S)
    be (pa : Ldap.PasswordAuthenticator S) username password rest :
  ldapAnswers be pa username password = false :: rest →
  Ldap.storage pa = None →
  Ldap.res_valid (Ldap.passwordAuthenticate be pa username password) = false
  ∧ match Ldap.cachedCredentials pa !! username with
    | Some entry =>
        match Ldap.Argon2CompareHashAndPassword be (Ldap.Hash entry) password
        with
        | None =>
            Ldap.res_pa (Ldap.passwordAuthenticate be pa username password)
            = Ldap.set_cached pa
                (delete username (Ldap.cachedCredentials pa))
            ∧ ∀ offline attempt,
                ldapAnswers offline
                  (Ldap.res_pa
                     (Ldap.passwordAuthenticate be pa username password))
                  username attempt = [] →
                Ldap.res_valid
                  (Ldap.passwordAuthenticate offline
                     (Ldap.res_pa
                        (Ldap.passwordAuthenticate be pa username password))
                     username attempt) = false
        | Some _ =>
            Ldap.res_pa (Ldap.passwordAuthenticate be pa username password)
            = pa
        end
    | None =>
        Ldap.res_pa (Ldap.passwordAuthenticate be pa username password) = pa
    end.
Proof.
  intros Hans Hst.
  destruct (passwordAuthenticate_online be pa username password false rest
              Hans) as (log1 & Hvalid & Hpa).
  split; [done|]. rewrite Hpa. unfold Ldap.updateOrDeletePasswordHash.
  rewrite Hst.
  destruct (Ldap.cachedCredentials pa !! username) as [entry|] eqn:Hc;
    [|done].
  destruct (Ldap.Argon2CompareHashAndPassword be (Ldap.Hash entry) password)
    as [e|]; [done|].
  simpl. split; [done|]. intros offline attempt Hoff.
  destruct (passwordAuthenticate_offline offline _ username attempt Hoff)
    as [log Hloops].
  unfold Ldap.passwordAuthenticate. rewrite Hloops. simpl. rewrite Hst.
  by rewrite lookup_delete_eq.
Qed.

Lemma rejected_login_evicts_hash_witness :
  Ldap.res_valid
    (Ldap.passwordAuthenticate rejectingBackend
       (Ldap.res_pa
          (Ldap.passwordAuthenticate acceptingBackend exampleAuthenticator
             "alice" "secret")) "alice" "secret") = false.
Proof.
  destruct (rejected_login_evicts_hash Ldap.mapStore _ rejectingBackend
              (Ldap.res_pa
                 (Ldap.passwordAuthenticate acceptingBackend
                    exampleAuthenticator "alice" "secret"))
              "alice" "secret" [] eq_refl eq_refl) as [Hvalid _].
  exact Hvalid.
Defined.

Section KeepsConfiguration.
Context {S : Type} `{Ldap.SimpleStore S}.
Implicit Types (be : Ldap.backend) (pa : Ldap.PasswordAuthenticator S).

Lemma keeps_configuration_refl username pa :
  keeps_configuration username pa pa.
Proof. by repeat split. Qed.

Lemma keeps_configuration_storage username pa s s0 :
  Ldap.storage pa = Some s0 →
  keeps_configuration username pa (Ldap.set_storage pa s).
Proof. intros Hst. repeat split; simpl; try done; by rewrite Hst. Qed.

Lemma keeps_configuration_cached username pa c :
  Ldap.storage pa = None →
  (∀ other, other ≠ username →
     c !! other = Ldap.cachedCredentials pa !! other) →
  keeps_configuration username pa (Ldap.set_cached pa c).
Proof.
  intros Hst Hc. repeat split; simpl; try done.
  rewrite Hst. by intros [? ?].
Qed.

Lemma updateOrDeletePasswordHash_keeps be pa log valid username password :
  keeps_configuration username pa
    (Ldap.updateOrDeletePasswordHash be pa log valid username password).1.1.
Proof.
  unfold Ldap.updateOrDeletePasswordHash. destruct valid.
  - destruct (Ldap.Argon2MakeNewHash be password) as [hash [e|]];
      [apply keeps_configuration_refl|].
    destruct (Ldap.storage pa) as [s|] eqn:Hst.
    + destruct (Ldap.UpsertSigned _ _ _ _ _) as [s' [e|]];
        eapply keeps_configuration_storage; eauto.
    + apply keeps_configuration_cached; [done|].
      intros other Hne. by rewrite lookup_insert_ne.
  - destruct (Ldap.storage pa) as [s|] eqn:Hst.
    + destruct (Ldap.GetSigned _ _ _) as [s' [[ok hash] [e|]]].
      * destruct ok; eapply keeps_configuration_storage; eauto.
      * destruct ok; [|eapply keeps_configuration_storage; eauto].
        destruct (Ldap.Argon2CompareHashAndPassword _ _ _);
          eapply keeps_configuration_storage; eauto.
    + destruct (Ldap.cachedCredentials pa !! username) as [entry|];
        [|apply keeps_configuration_refl].
      destruct (Ldap.Argon2CompareHashAndPassword _ _ _);
        [apply keeps_configuration_refl|].
      apply keeps_configuration_cached; [done|].
      intros other Hne. by rewrite lookup_delete_ne.
Qed.

End KeepsConfiguration.

(** X18.  Whatever the directory, the store and the hash functions do, an
    authentication of one user leaves the configuration of the
    authenticator as it is (URLs, bind patterns, time-out, logger, cache
    duration, and whether there is a store) and does not touch the cached
    hash of any other user; with a store, the map of the authenticator is
    not touched at all. *)
Theorem passwordAuthenticate_keeps_configuration (S : Type)
    (store : Ldap.SimpleStore S) be (pa : Ldap.PasswordAuthenticator S)
    username password :
  keeps_configuration username pa
    (Ldap.res_pa (Ldap.passwordAuthenticate be pa username password)).
Proof.
  unfold Ldap.passwordAuthenticate.
  pose proof (tryURLs_answers be pa (Ldap.ldapURL pa) username password [])
    as Hu.
  destruct (Ldap.tryURLs _ _ _ _ _ _) as [r|log].
  - destruct Hu as (valid & rest & log1 & _ & _ & ->).
    apply updateOrDeletePasswordHash_keeps.
  - destruct (Ldap.storage pa) as [s|] eqn:Hst.
    + destruct (Ldap.GetSigned _ _ _) as [s' [[ok hash] [e|]]].
      * destruct ok; eapply keeps_configuration_storage; eauto.
      * destruct ok; [|eapply keeps_configuration_storage; eauto].
        destruct (Ldap.Argon2CompareHashAndPassword _ _ _);
          eapply keeps_configuration_storage; eauto.
    + destruct (Ldap.cachedCredentials pa !! username) as [entry|];
        [|apply keeps_configuration_refl].
      destruct (Ldap.Argon2CompareHashAndPassword _ _ _);
        [apply keeps_configuration_refl|].
      destruct (0 <? _)%Z; apply keeps_configuration_refl.
Qed.

(** ** Further compositions *)

(** X19.  Saving a well-formed store through the save timer and loading
    the file at the next start gives every user's history back reversed
    and without the records before the cutoff of the load; every user of
    the store has an entry again.  When the cutoff keeps every record the
    loaded history has the records of the saved one, each as often: the
    round trip loses no record and invents none. *)
Theorem save_load_round_trip r st M order now :
  loop_inv st M → readOnly (disk st) = false → range_order M order →
  ∃ sr',
    saveThenLoad r st order now = Some sr'
    ∧ (∀ u, historyOf sr' u
            = Some (unexpired (minCreateTime now)
                      (reverse (default [] (M !! u)))))
    ∧ (∀ u, is_Some (eventsMap sr' !! u)
            ↔ is_Some (eventsMap (recorder st) !! u))
    ∧ ((∀ u (es : list EventType) e, M !! u = Some es → e ∈ es →
          (minCreateTime now <= CreateTime e)%Z) →
       ∀ u, ∃ es', historyOf sr' u = Some es'
                   ∧ es' ≡ₚ default [] (M !! u)).
Proof.
  intros Hinv Hrw Horder. pose proof Hinv as [Hrep _].
  unfold saveThenLoad. simpl.
  destruct (getEventsList_inv st M (computeTime r) Hinv)
    as (c & p & events & -> & Hlast & Hev & Hmap).
  rewrite Hev, Hmap. unfold saveEvents, renamingWrite. rewrite Hrw. simpl.
  destruct (newEventRecorder_loads
              {| files := <[filename (recorder st) :=
                              {| mode := filePerms;
                                 data := Gob (reverse <$> M) |}]>
                            (files (disk st));
                 readOnly := false |}
              (filename (recorder st))
              {| mode := filePerms; data := Gob (reverse <$> M) |}
              (reverse <$> M) order now) as (sr' & Hnew & _ & Hrep').
  - simpl. apply lookup_insert_eq.
  - done.
  - done.
  - unfold range_order in *. rewrite Horder.
    rewrite map_to_list_fmap, <- list_fmap_compose.
    assert (Heq : fst ∘ prod_map id reverse <$> map_to_list M
                  = (map_to_list M).*1)
      by (apply list_fmap_ext; by intros ? [] ?).
    by rewrite Heq.
  - rewrite Hnew. simpl. exists sr'. split; [done|].
    assert (Hhist : ∀ u, historyOf sr' u
              = Some (unexpired (minCreateTime now)
                        (reverse (default [] (M !! u))))).
    { intros u. destruct (represents_history _ _ u Hrep') as [-> _].
      rewrite !lookup_fmap. by destruct (M !! u). }
    split; [done|]. split.
    + intros u. rewrite <- !not_eq_None_Some.
      rewrite (represents_dom _ _ u Hrep'), (represents_dom _ _ u Hrep).
      by rewrite !lookup_fmap, !fmap_None.
    + intros Hkeep u. eexists. split; [apply Hhist|].
      rewrite unexpired_all; [apply reverse_Permutation|].
      intros e He. rewrite elem_of_reverse in He.
      destruct (M !! u) as [es|] eqn:Hu; [eauto|].
      by apply not_elem_of_nil in He.
Qed.

Lemma exampleHistories_order : range_order exampleHistories ["alice"].
Proof. unfold range_order. by vm_compute. Qed.

Lemma save_load_round_trip_witness :
  ∃ sr',
    saveThenLoad exampleReadings exampleLoop ["alice"] 5000100 = Some sr'
    ∧ historyOf sr' "alice"
      = Some (unexpired (minCreateTime 5000100)
                (reverse (default [] (exampleHistories !! "alice")))).
Proof.
  destruct (save_load_round_trip exampleReadings exampleLoop
              exampleHistories ["alice"] 5000100 (proj1 exampleLoop_inv)
              ltac:(by vm_compute) exampleHistories_order)
    as (sr' & Hrun & Hhist & _).
  exists sr'. split; [exact Hrun | exact (Hhist "alice")].
Defined.

(** X20.  A store that [newEventRecorder] has just loaded has nothing to
    expire at the time of the load: a pass of [expireOldEvents] with the
    same clock reading returns [false] and leaves the store as it is, in
    whatever order the file lists the records. *)
Theorem loaded_store_has_nothing_to_expire fs name f (events : EventsMap)
    order now :
  files fs !! name = Some f → Z.testbit (mode f) 8 = true →
  data f = Gob events → range_order events order →
  ∃ sr,
    newEventRecorder fs name order now = (Some sr, None)
    ∧ ∀ order', range_order (eventsMap sr) order' →
                expireOldEvents order' now sr = Some (false, sr).
Proof.
  intros Hf Hread Hdata Horder.
  destruct (newEventRecorder_loads fs name f events order now Hf Hread Hdata
              Horder) as (sr & Hnew & _ & Hrep).
  exists sr. split; [done|]. intros order' Horder'.
  destruct (expireOldEvents_drop_before sr _ order' now Hrep Horder')
    as (changed & sr' & Hrun & _ & Hchanged).
  assert (changed = false) as ->.
  { apply not_true_is_false. intros Htrue.
    apply Hchanged in Htrue as (u & e & l & Hl & Hlt).
    rewrite lookup_fmap in Hl.
    destruct (events !! u) as [es|]; [|done]. simpl in Hl.
    assert (He : e ∈ unexpired (minCreateTime now) es).
    { injection Hl as Hl. rewrite Hl. apply list_elem_of_here. }
    unfold unexpired in He. apply list_elem_of_filter in He as [Hle _]. lia. }
  rewrite Hrun. f_equal. f_equal.
  by apply (expireOldEvents_false sr _ order' now sr' Hrep
              (range_order_NoDup _ _ Horder')).
Qed.

Lemma loaded_store_has_nothing_to_expire_witness :
  ∃ sr,
    newEventRecorder exampleSavedFS "events" ["alice"] 7678430
      = (Some sr, None)
    ∧ ∀ order', range_order (eventsMap sr) order' →
                expireOldEvents order' 7678430 sr = Some (false, sr).
Proof.
  assert (Hf : files exampleSavedFS !! "events" = Some exampleSavedFile)
    by (by vm_compute).
  assert (Horder : range_order exampleSaved ["alice"])
    by (unfold range_order; by vm_compute).
  exact (loaded_store_has_nothing_to_expire exampleSavedFS "events"
           exampleSavedFile exampleSaved ["alice"] 7678430 Hf eq_refl
           eq_refl Horder).
Defined.

(** X21.  Quantization keeps the order of lifetimes: a longer lifetime is
    never recorded as a shorter one. *)
Theorem quantizeLifetime_monotone s1 s2 :
  is_uint32 s1 → is_uint32 s2 → (s1 <= s2)%Z →
  (quantizeLifetime s1 <= quantizeLifetime s2)%Z.
Proof.
  intros H1 H2 Hle.
  rewrite (quantizeLifetime_refines s1 H1), (quantizeLifetime_refines s2 H2).
  destruct H1 as [H1 _]. destruct H2 as [H2 _].
  destruct (Z.eq_dec s1 s2) as [->|Hne]; [lia|].
  assert (Hge : (s2 <= quantize_spec s2)%Z).
  { destruct (quantize_spec_cases s2 H2)
      as [-> | [(_ & k & -> & ?) | (_ & -> & _)]]; lia. }
  destruct (quantize_spec_cases s1 H1)
    as [-> | [(Hh & k & -> & Hk) | (_ & -> & _)]]; [lia| |lia].
  destruct (Z_le_dec (k * 3600) s2); [lia|].
  unfold quantize_spec.
  rewrite (proj2 (Z.leb_le 3600 s2)) by lia.
  assert (Hdiv : (s2 / 3600 < k <= (s2 + 60) / 3600)%Z).
  { split.
    - apply Z.div_lt_upper_bound; lia.
    - apply Z.div_le_lower_bound; lia. }
  rewrite (proj2 (Z.ltb_lt (s2 / 3600) ((s2 + 60) / 3600))) by lia.
  nia.
Qed.

Lemma quantizeLifetime_monotone_witness :
  (quantizeLifetime 3599 <= quantizeLifetime 3600)%Z.
Proof.
  apply quantizeLifetime_monotone; unfold is_uint32; lia.
Defined.
